(** * mcp-youtube: subtitle cache, chunker, pagination and VTT normalizer

    A shallow embedding of [src/index.ts].  JavaScript strings are
    sequences of UTF-16 code units, so a string is a list of code units
    and [length] is the JS [.length].  Numbers that the program uses as
    sizes, indices and timestamps are integer valued and are modelled by
    [Z]. *)

From Stdlib Require Import ZArith Ascii String.
From stdpp Require Import gmap list.

Local Open Scope Z_scope.

(** ** Strings *)

Module JS.

Definition code_unit := N.
Abbreviation jsstring := (list N).

(** An ASCII literal as a sequence of code units. *)
Definition str (s : string) : jsstring :=
  map N_of_ascii (list_ascii_of_string s).

Definition nl : N := 10%N.

(** [a === b] on strings. *)
Definition streq (a b : jsstring) : bool := bool_decide (a = b).

(** Relative index resolution shared by [String.prototype.slice] and
    [Array.prototype.slice]: a negative index counts from the end. *)
Definition clampIndex (len k : Z) : Z :=
  if k <? 0 then Z.max (len + k) 0 else Z.min k len.

(** [s.slice(start, end)]. *)
Definition slice {A} (s : list A) (start end_ : Z) : list A :=
  let len := Z.of_nat (length s) in
  let from := clampIndex len start in
  let to := clampIndex len end_ in
  take (Z.to_nat (to - from)) (drop (Z.to_nat from) s).

(** [a[i]] for an integer-valued [i]: [None] is [undefined]. *)
Definition index {A} (a : list A) (i : Z) : option A :=
  if i <? 0 then None else a !! Z.to_nat i.

End JS.
Import JS.

(** ** The chunker (index.ts, lines 96-102) *)

(** The [for] loop of [chunkText]: [i] is the loop variable, [chunks] the
    array built so far.  One unit of fuel is spent per executed loop
    body; [None] means the fuel ran out before the loop condition
    failed.

    The array is taken to be unbounded, so [chunks.push] always succeeds.
    This is the program for a positive [chunkSize], where the loop ends
    by its condition after at most [text.length] bodies.  For a
    [chunkSize] that is not positive and a non-empty text the condition
    never fails and the loop of the program ends when [chunks.push]
    throws [RangeError: Invalid array length]; that outcome is not
    described here, so what is stated below about the result of
    [chunkText] is stated for a positive [chunkSize]. *)
Fixpoint chunkText_loop (fuel : nat) (text : jsstring) (chunkSize i : Z)
    (chunks : list jsstring) : option (list jsstring) :=
  if i <? Z.of_nat (length text) then
    match fuel with
    | O => None
    | S fuel' =>
        chunkText_loop fuel' text chunkSize (i + chunkSize)
          (chunks ++ [slice text i (i + chunkSize)])
    end
  else Some chunks.

Definition chunkText (fuel : nat) (text : jsstring) (chunkSize : Z)
    : option (list jsstring) :=
  chunkText_loop fuel text chunkSize 0 [].

(** All chunks but the last have length [size]; the last one has between
    1 and [size] code units. *)
Definition chunk_lengths (size : Z) (cs : list jsstring) : Prop :=
  ∀ (j : nat) (c : jsstring), cs !! j = Some c →
    (S j < length cs)%nat → Z.of_nat (length c) = size.

Definition last_chunk_length (size : Z) (cs : list jsstring) : Prop :=
  ∀ c : jsstring, last cs = Some c → 1 ≤ Z.of_nat (length c) ≤ size.

(** ** The caption normalizer (index.ts, lines 262-312) *)

Module Vtt.

(** WhiteSpace and LineTerminator code units, the set removed by
    [String.prototype.trim]. *)
Definition isWhiteSpace (c : N) : bool :=
  existsb (N.eqb c)
    [9; 10; 11; 12; 13; 32; 160; 5760; 8232; 8233; 8239; 8287; 12288; 65279]%N
  || ((8192 <=? c)%N && (c <=? 8202)%N).

Fixpoint trimStart (s : jsstring) : jsstring :=
  match s with
  | [] => []
  | c :: r => if isWhiteSpace c then trimStart r else s
  end.

Fixpoint trimEnd (s : jsstring) : jsstring :=
  match s with
  | [] => []
  | c :: r =>
      match trimEnd r with
      | [] => if isWhiteSpace c then [] else [c]
      | r' => c :: r'
      end
  end.

Definition trim (s : jsstring) : jsstring := trimEnd (trimStart s).

Fixpoint startsWith (s prefix : jsstring) : bool :=
  match prefix, s with
  | [], _ => true
  | p :: ps, c :: r => (p =? c)%N && startsWith r ps
  | _ :: _, [] => false
  end.

(** [s.includes(needle)]. *)
Fixpoint includes (s needle : jsstring) : bool :=
  startsWith s needle
  || match s with
     | [] => false
     | _ :: r => includes r needle
     end.

(** [s.split(sep)] for a one-unit separator: never the empty array. *)
Fixpoint split (sep : N) (s : jsstring) : list jsstring :=
  match s with
  | [] => [[]]
  | c :: r =>
      if (c =? sep)%N then [] :: split sep r
      else match split sep r with
           | [] => [[c]]
           | l :: ls => (c :: l) :: ls
           end
  end.

(** [a.join(sep)]. *)
Fixpoint join (sep : jsstring) (a : list jsstring) : jsstring :=
  match a with
  | [] => []
  | [l] => l
  | l :: ls => l ++ sep ++ join sep ls
  end.

(** The two regular expressions of the program only use literals and
    [\d], in alternatives of fixed length. *)
Inductive atom := Lit (c : N) | Digit.

Definition isDigit (c : N) : bool := (48 <=? c)%N && (c <=? 57)%N.

Definition matchAtom (a : atom) (c : N) : bool :=
  match a with
  | Lit d => (d =? c)%N
  | Digit => isDigit c
  end.

Fixpoint matchSeq (pat : list atom) (s : jsstring) : bool :=
  match pat, s with
  | [], _ => true
  | a :: pat', c :: r => matchAtom a c && matchSeq pat' r
  | _ :: _, [] => false
  end.

(** The first alternative (in order) that matches at the head of [s];
    the result is the length of the match. *)
Fixpoint matchAlt (alts : list (list atom)) (s : jsstring) : option nat :=
  match alts with
  | [] => None
  | pat :: alts' =>
      if matchSeq pat s then Some (length pat) else matchAlt alts' s
  end.

(** [s.replace(/alt1|alt2|.../g, "")]: scan left to right, delete each
    leftmost match and resume after it.  [skip] counts the code units of
    the current match still to be deleted. *)
Fixpoint removeAll_go (alts : list (list atom)) (skip : nat) (s : jsstring)
    : jsstring :=
  match s with
  | [] => []
  | c :: r =>
      match skip with
      | S k => removeAll_go alts k r
      | O =>
          match matchAlt alts s with
          | Some n => removeAll_go alts (Nat.pred n) r
          | None => c :: removeAll_go alts O r
          end
      end
  end.

Definition removeAll (alts : list (list atom)) (s : jsstring) : jsstring :=
  removeAll_go alts O s.

Definition lits (s : string) : list atom := map Lit (str s).

(** [<\d{2}:\d{2}:\d{2}\.\d{3}>] *)
Definition timestampTag : list atom :=
  lits "<" ++ [Digit; Digit] ++ lits ":" ++ [Digit; Digit] ++ lits ":"
  ++ [Digit; Digit] ++ lits "." ++ [Digit; Digit; Digit] ++ lits ">".

(** Lines 292-294. *)
Definition cleanLine (line : jsstring) : jsstring :=
  removeAll [lits "<c>"] (removeAll [timestampTag; lits "</c>"] line).

(** The first loop, lines 279-299. *)
Fixpoint textLines (contentLines : list jsstring) : list jsstring :=
  match contentLines with
  | [] => []
  | line :: rest =>
      if includes line (str "-->") then textLines rest
      else if includes line (str "align:") || includes line (str "position:")
      then textLines rest
      else if streq (trim line) [] then textLines rest
      else
        let cleanedLine := cleanLine line in
        if negb (streq (trim cleanedLine) [])
        then trim cleanedLine :: textLines rest
        else textLines rest
  end.

(** The second loop, lines 304-309: [prev] is [textLines[i - 1]], absent
    when [i === 0]. *)
Fixpoint uniqueLines_from (prev : option jsstring) (textLines : list jsstring)
    : list jsstring :=
  match textLines with
  | [] => []
  | line :: rest =>
      match prev with
      | Some p =>
          if negb (streq line p) then line :: uniqueLines_from (Some line) rest
          else uniqueLines_from (Some line) rest
      | None => line :: uniqueLines_from (Some line) rest
      end
  end.

Definition uniqueLines (textLines : list jsstring) : list jsstring :=
  uniqueLines_from None textLines.

Definition stripVttNonContent (vttContent : jsstring) : jsstring :=
  if streq vttContent [] || streq (trim vttContent) [] then []
  else
    let lines := split nl vttContent in
    if (Z.of_nat (length lines) <? 4)
       || negb (from_option (λ l0, includes l0 (str "WEBVTT")) false (lines !! 0%nat))
    then []
    else
      let contentLines := slice lines 4 (Z.of_nat (length lines)) in
      join [nl] (uniqueLines (textLines contentLines)).

End Vtt.
Import Vtt.

Definition scenario : jsstring :=
  str "WEBVTT" ++ [nl] ++ [nl]
  ++ str "00:00:00.000 --> 00:00:01.000" ++ [nl] ++ str "Hello" ++ [nl] ++ [nl]
  ++ str "00:00:01.000 --> 00:00:02.000" ++ [nl] ++ str "Hello" ++ [nl] ++ [nl]
  ++ str "00:00:02.000 --> 00:00:03.000" ++ [nl] ++ str "World" ++ [nl].

(** ** Rendering of numbers in template literals *)

Fixpoint digits (d : Decimal.uint) : jsstring :=
  match d with
  | Decimal.Nil => []
  | Decimal.D0 d => 48%N :: digits d
  | Decimal.D1 d => 49%N :: digits d
  | Decimal.D2 d => 50%N :: digits d
  | Decimal.D3 d => 51%N :: digits d
  | Decimal.D4 d => 52%N :: digits d
  | Decimal.D5 d => 53%N :: digits d
  | Decimal.D6 d => 54%N :: digits d
  | Decimal.D7 d => 55%N :: digits d
  | Decimal.D8 d => 56%N :: digits d
  | Decimal.D9 d => 57%N :: digits d
  end.

(** [`${n}`] for an integer-valued number: plain decimal notation.  This
    is what JS prints for the integers of magnitude at most 2^53, among
    them every length and every index of an array; beyond that JS prints
    the shortest digits that read back as the same number, and an
    exponent from 10^21 on, so the statements below only fix the text
    of a number within this range. *)
Definition numberToString (n : Z) : jsstring :=
  match n with
  | Z0 => [48%N]
  | Zpos p => digits (Pos.to_uint p)
  | Zneg p => 45%N :: digits (Pos.to_uint p)
  end.

(** ** The cache and the two tool handlers *)

Record SubtitleCache := {
  url : jsstring;
  content : jsstring;
  chunks : list jsstring;
  timestamp : Z;
}.

Definition CACHE_TTL : Z := 30 * 60 * 1000.
Definition DEFAULT_CHUNK_SIZE : Z := 15000.

(** [cleanupExpiredCache] (lines 87-94) with the reading [now] of the
    clock made explicit: the entries deleted are exactly those with
    [now - cache.timestamp > CACHE_TTL], the others stay as they are. *)
Definition expired (now : Z) (cache : SubtitleCache) : bool :=
  now - timestamp cache >? CACHE_TTL.

Definition cleanupExpiredCache (now : Z)
    (subtitleCache : gmap jsstring SubtitleCache)
    : gmap jsstring SubtitleCache :=
  filter (λ kv, negb (expired now kv.2)) subtitleCache.

(** What a computation does, apart from running forever: it returns a
    value or throws; a thrown value is kept as the text [`${err}`]. *)
Inductive outcome (A : Type) :=
  | Returned (a : A)
  | Thrown (err : jsstring).
Arguments Returned {A} a.
Arguments Thrown {A} err.

(** The state of the server process: the module-level [subtitleCache],
    and a log of the URLs [spawnPromise] has been called with for
    [yt-dlp] (ghost state, used to count the invocations of the
    transcript source). *)
Record State := {
  subtitleCache : gmap jsstring SubtitleCache;
  spawned : list jsstring;
}.

(** How a call of [downloadSubtitles] goes (lines 104-134):
    [fs.mkdtempSync] throws, before anything is spawned and outside the
    [try] (line 105); or [yt-dlp] is spawned and then the spawn, the
    reading of the temporary directory or its removal throws; or the
    caption files (name, content) are read, in directory order. *)
Inductive download_result :=
  | TempDirFailed (err : jsstring)
  | FailedAfterSpawn (err : jsstring)
  | Downloaded (files : list (jsstring * jsstring)).

(** What one request observes of the outside world: the two readings of
    [Date.now()] (in [cleanupExpiredCache], and when the new entry is
    built), and how the download of a URL goes. *)
Record Env := {
  now_sweep : Z;
  download : jsstring → download_result;
  now_store : Z;
}.

(** The caption files a download gives, or what it throws. *)
Definition captions (env : Env) (u : jsstring)
    : outcome (list (jsstring * jsstring)) :=
  match download env u with
  | TempDirFailed err => Thrown err
  | FailedAfterSpawn err => Thrown err
  | Downloaded files => Returned files
  end.

(** The calls of [spawnPromise] a download of the URL makes. *)
Definition spawnsOf (env : Env) (u : jsstring) : list jsstring :=
  match download env u with
  | TempDirFailed _ => []
  | FailedAfterSpawn _ => [u]
  | Downloaded _ => [u]
  end.

(** Stateful computations that may throw; [None] is a computation that
    has not finished within the fuel given to [chunkText]. *)
Definition M (A : Type) : Type := State → option (outcome A * State).

Definition ret {A} (a : A) : M A := λ st, Some (Returned a, st).
Definition throw {A} (err : jsstring) : M A := λ st, Some (Thrown err, st).
Definition bind {A B} (m : M A) (f : A → M B) : M B :=
  λ st,
    match m st with
    | None => None
    | Some (Thrown err, st') => Some (Thrown err, st')
    | Some (Returned a, st') => f a st'
    end.
Definition try_catch {A} (body : M A) (handler : jsstring → M A) : M A :=
  λ st,
    match body st with
    | None => None
    | Some (Thrown err, st') => handler err st'
    | Some (Returned a, st') => Some (Returned a, st')
    end.

#[global] Instance M_ret : MRet M := @ret.
#[global] Instance M_bind : MBind M := λ A B f m, bind m f.

Definition getState : M State := λ st, Some (Returned st, st).
Definition putCache (c : gmap jsstring SubtitleCache) : M unit :=
  λ st, Some (Returned tt, {| subtitleCache := c; spawned := spawned st |}).
Definition logSpawn (u : jsstring) : M unit :=
  λ st, Some (Returned tt,
              {| subtitleCache := subtitleCache st;
                 spawned := spawned st ++ [u] |}).
Definition liftOutcome {A} (o : outcome A) : M A := λ st, Some (o, st).
Definition liftFuel {A} (o : option A) : M A :=
  λ st, match o with Some a => Some (Returned a, st) | None => None end.

(** The result object of a tool call.  [text] is [None] when the
    property holds [undefined]; a result without an [isError] property
    has [isError = false]. *)
Record ToolResult := {
  text : option jsstring;
  isError : bool;
}.

(** [`${err}`] for the [TypeError] raised by reading [.length] of
    [undefined]. *)
Definition typeErrorLength : jsstring :=
  str "TypeError: Cannot read properties of undefined (reading 'length')".

(** [v.length] for a value that is a string or [undefined]. *)
Definition lengthOf (v : option jsstring) : M Z :=
  match v with
  | Some s => ret (Z.of_nat (length s))
  | None => throw typeErrorLength
  end.

(** [v + s] for a value that is a string or [undefined]. *)
Definition plus (v : option jsstring) (s : jsstring) : jsstring :=
  from_option id (str "undefined") v ++ s.

(** The [forEach] of lines 123-128 over the files of the temporary
    directory: each file adds its name, a separator line and its
    normalized content. *)
Definition readCaptions (files : list (jsstring * jsstring)) : jsstring :=
  fold_left
    (λ content '(file, fileContent),
       let cleanedContent := stripVttNonContent fileContent in
       content ++ file ++ [nl] ++ str "====================" ++ [nl]
       ++ cleanedContent)
    files [].

Section Server.

(** [getCacheKey] (lines 83-85) is the hex MD5 digest of [node:crypto]. *)
Variable getCacheKey : jsstring → jsstring.

Definition cleanupExpiredCacheM (env : Env) : M unit :=
  st ← getState;
  putCache (cleanupExpiredCache (now_sweep env) (subtitleCache st)).

(** [downloadSubtitles] (lines 104-134). *)
Definition downloadSubtitles (env : Env) (u : jsstring) : M jsstring :=
  match download env u with
  | TempDirFailed err => throw err
  | FailedAfterSpawn err => logSpawn u;; throw err
  | Downloaded files => logSpawn u;; ret (readCaptions files)
  end.

(** Lines 141-155 and 196-210; the two handlers differ only in the chunk
    size passed to [chunkText]. *)
Definition getOrPopulate (fuel : nat) (env : Env) (u cacheKey : jsstring)
    (chunkSize : Z) : M SubtitleCache :=
  st ← getState;
  match subtitleCache st !! cacheKey with
  | Some cache => ret cache
  | None =>
      content ← downloadSubtitles env u;
      chunks ← liftFuel (chunkText fuel content chunkSize);
      let cache := {| url := u; content := content; chunks := chunks;
                      timestamp := now_store env |} in
      st' ← getState;
      putCache (<[cacheKey := cache]> (subtitleCache st'));;
      ret cache
  end.

(** The first statements of both handlers (lines 138-155 and 192-210):
    sweep the expired entries, then return the entry of the URL, from
    the cache or from a download. *)
Definition sweepThenGetOrPopulate (fuel : nat) (env : Env) (u : jsstring)
    (chunkSize : Z) : M SubtitleCache :=
  cleanupExpiredCacheM env;;
  getOrPopulate fuel env u (getCacheKey u) chunkSize.

Definition paginationHeader : jsstring :=
  [nl; nl] ++ str "=== PAGINATION INFO ===" ++ [nl].

Definition nextChunkHint : jsstring :=
  str "To get the next chunk, use: get_youtube_subtitles with chunk_index=".

Definition lastChunkMarker : jsstring := str "This is the last chunk.".

(** [handleDownloadYoutubeUrl] (lines 136-188). *)
Definition handleDownloadYoutubeUrl (fuel : nat) (env : Env) (u : jsstring)
    : M ToolResult :=
  try_catch
    (cleanupExpiredCacheM env;;
     let cacheKey := getCacheKey u in
     cache ← getOrPopulate fuel env u cacheKey DEFAULT_CHUNK_SIZE;
     let totalChunks := Z.of_nat (length (chunks cache)) in
     let isLongVideo := 1 <? totalChunks in
     let responseText := index (chunks cache) 0 in
     if isLongVideo then
       let responseText1 := plus responseText paginationHeader in
       len0 ← lengthOf (index (chunks cache) 0);
       let responseText2 :=
         responseText1 ++ str "This is chunk 1 of "
         ++ numberToString totalChunks ++ str " ("
         ++ numberToString len0 ++ str " characters)" ++ [nl] in
       let responseText3 :=
         responseText2 ++ str "Total content length: "
         ++ numberToString (Z.of_nat (length (content cache)))
         ++ str " characters" ++ [nl] in
       let responseText4 :=
         responseText3 ++ nextChunkHint ++ str "1" in
       ret {| text := Some responseText4; isError := false |}
     else ret {| text := responseText; isError := false |})
    (λ err,
       ret {| text := Some (str "Error downloading video: " ++ err);
              isError := true |}).

(** The footer appended to the chunk by lines 228-236. *)
Definition paginationFooter (cache : SubtitleCache) (chunk_index : Z)
    (chunkLength : Z) : jsstring :=
  let totalChunks := Z.of_nat (length (chunks cache)) in
  paginationHeader
  ++ (str "This is chunk " ++ numberToString (chunk_index + 1) ++ str " of "
      ++ numberToString totalChunks ++ str " ("
      ++ numberToString chunkLength ++ str " characters)" ++ [nl])
  ++ (str "Total content length: "
      ++ numberToString (Z.of_nat (length (content cache)))
      ++ str " characters" ++ [nl])
  ++ (if chunk_index <? totalChunks - 1
      then nextChunkHint ++ numberToString (chunk_index + 1)
      else lastChunkMarker).

(** The text of the out-of-range result, line 217. *)
Definition outOfRangeText (cache : SubtitleCache) (chunk_index : Z) : jsstring :=
  str "Error: chunk_index " ++ numberToString chunk_index
  ++ str " is out of range. Available chunks: 0-"
  ++ numberToString (Z.of_nat (length (chunks cache)) - 1).

(** [args.chunk_size || DEFAULT_CHUNK_SIZE]: an absent property and the
    number 0 are falsy. *)
Definition chunkSizeOrDefault (chunk_size : option Z) : Z :=
  match chunk_size with
  | None => DEFAULT_CHUNK_SIZE
  | Some n => if n =? 0 then DEFAULT_CHUNK_SIZE else n
  end.

(** [handleGetYoutubeSubtitles] (lines 190-257). *)
Definition handleGetYoutubeSubtitles (fuel : nat) (env : Env) (u : jsstring)
    (chunk_index : Z) (chunk_size : option Z) : M ToolResult :=
  try_catch
    (cleanupExpiredCacheM env;;
     let cacheKey := getCacheKey u in
     let chunkSize := chunkSizeOrDefault chunk_size in
     cache ← getOrPopulate fuel env u cacheKey chunkSize;
     if (chunk_index <? 0)
        || (Z.of_nat (length (chunks cache)) <=? chunk_index)
     then ret {| text := Some (outOfRangeText cache chunk_index);
                 isError := true |}
     else
       let chunk := index (chunks cache) chunk_index in
       chunkLength ← lengthOf chunk;
       ret {| text := Some (plus chunk
                              (paginationFooter cache chunk_index chunkLength));
              isError := false |})
    (λ err,
       ret {| text := Some (str "Error getting subtitles: " ++ err);
              isError := true |}).

End Server.

(** The state left by the sweep of a request. *)
Definition swept (env : Env) (st : State) : State :=
  {| subtitleCache := cleanupExpiredCache (now_sweep env) (subtitleCache st);
     spawned := spawned st |}.

(** Sample data for the closed instances of the theorems; the stand-in
    for the digest is the identity. *)
Definition sampleUrl : jsstring := str "https://youtu.be/abc".

Definition sampleEntry : SubtitleCache :=
  {| url := sampleUrl; content := str "abcdefg";
     chunks := [str "abc"; str "def"; str "g"]; timestamp := 1000 |}.

Definition sampleState : State :=
  {| subtitleCache := {[ sampleUrl := sampleEntry ]}; spawned := [sampleUrl] |}.

Definition emptyState : State := {| subtitleCache := ∅; spawned := [] |}.

Definition sampleEnv (now : Z) (files : list (jsstring * jsstring)) : Env :=
  {| now_sweep := now; download := λ _, Downloaded files;
     now_store := now + 5 |}.

(** The first line of a document, [vttContent.split("\n")[0]]. *)
Definition firstLine (vttContent : jsstring) : jsstring :=
  default [] (split nl vttContent !! 0%nat).


(** ** The tool dispatcher (index.ts, lines 73-81) *)

(** The arguments object of a tool call; [download_youtube_url] only
    reads [url]. *)
Record ToolArgs := {
  args_url : jsstring;
  args_chunk_index : Z;
  args_chunk_size : option Z;
}.

Section Dispatcher.

Variable getCacheKey : jsstring → jsstring.

(** The [CallToolRequestSchema] handler; the thrown [Error] is kept as
    its text, "Error: " followed by the message. *)
Definition callTool (fuel : nat) (env : Env) (name : jsstring)
    (args : ToolArgs) : M ToolResult :=
  if streq name (str "download_youtube_url") then
    handleDownloadYoutubeUrl getCacheKey fuel env (args_url args)
  else if streq name (str "get_youtube_subtitles") then
    handleGetYoutubeSubtitles getCacheKey fuel env (args_url args)
      (args_chunk_index args) (args_chunk_size args)
  else throw (str "Error: Unknown tool: " ++ name).

(** What every entry written by the handlers satisfies: it sits under
    the digest of its own URL and its chunks spell out its content. *)
Definition cache_consistent (m : gmap jsstring SubtitleCache) : Prop :=
  ∀ k c, m !! k = Some c →
    k = getCacheKey (url c) ∧ concat (chunks c) = content c.

End Dispatcher.

(** More sample data: a download that throws, one caption file, and an
    out-of-range result. *)
Definition failingEnv : Env :=
  {| now_sweep := 2000;
     download := λ _, FailedAfterSpawn (str "Error: yt-dlp exited with code 1");
     now_store := 2005 |}.

Definition noTempDirEnv : Env :=
  {| now_sweep := 2000;
     download := λ _, TempDirFailed (str "Error: ENOSPC: no space left on device, mkdtemp");
     now_store := 2005 |}.

Definition oneFile : list (jsstring * jsstring) := [(str "a.en.vtt", scenario)].

Definition oneFileEntry : SubtitleCache :=
  {| url := sampleUrl; content := readCaptions oneFile;
     chunks := [readCaptions oneFile]; timestamp := 2005 |}.

Definition oneFileState : State :=
  {| subtitleCache := {[ sampleUrl := oneFileEntry ]};
     spawned := [sampleUrl] |}.

Definition downloadError : ToolResult :=
  {| text := Some (str "Error downloading video: Error: yt-dlp exited with code 1");
     isError := true |}.

Definition outOfRange5 : ToolResult :=
  {| text := Some (str "Error: chunk_index 5 is out of range. Available chunks: 0-2");
     isError := true |}.

(** No line equal to the line before it. *)
Definition no_adjacent_duplicates (lines : list jsstring) : Prop :=
  ∀ (i : nat) (a b : jsstring),
    lines !! i = Some a → lines !! S i = Some b → a ≠ b.

(** What one caption file adds to the downloaded content (line 127). *)
Definition captionBlock (entry : jsstring * jsstring) : jsstring :=
  entry.1 ++ [nl] ++ str "====================" ++ [nl]
  ++ stripVttNonContent entry.2.

(** * Properties *)

(** ** The chunker *)

Section Chunker.

Variable text : jsstring.
Variable size : Z.
Hypothesis size_pos : 0 < size.

Lemma slice_chunk (i : Z) :
  0 ≤ i < Z.of_nat (length text) →
  slice text i (i + size)
  = take (Z.to_nat size) (drop (Z.to_nat i) text).
Proof using size_pos.
  intros Hi. unfold slice, clampIndex.
  destruct (Z.ltb_spec i 0); [lia|].
  destruct (Z.ltb_spec (i + size) 0); [lia|].
  rewrite (Z.min_l i) by lia.
  destruct (Z.le_gt_cases (i + size) (Z.of_nat (length text))) as [Hle|Hgt].
  - rewrite Z.min_l by lia. f_equal. lia.
  - rewrite Z.min_r by lia.
    rewrite !take_ge; [done| |]; rewrite length_drop; lia.
Qed.

Lemma chunkText_loop_spec (fuel : nat) :
  ∀ (i : Z) (acc : list jsstring),
    0 ≤ i →
    (Z.to_nat (Z.of_nat (length text) - i) ≤ fuel)%nat →
    ∃ rest,
      chunkText_loop fuel text size i acc = Some (acc ++ rest)
      ∧ concat rest = drop (Z.to_nat i) text
      ∧ (rest = [] ↔ Z.of_nat (length text) ≤ i)
      ∧ chunk_lengths size rest
      ∧ last_chunk_length size rest.
Proof using size_pos.
  induction fuel as [|fuel IH]; intros i acc Hi Hfuel.
  - exists []. simpl.
    destruct (Z.ltb_spec i (Z.of_nat (length text))); [lia|].
    rewrite app_nil_r, drop_ge by lia.
    split_and!; done.
  - simpl. destruct (Z.ltb_spec i (Z.of_nat (length text))) as [Hlt|Hge].
    + destruct (IH (i + size) (acc ++ [slice text i (i + size)]))
        as (rest & Hrun & Hcat & Hnil & Hlen & Hlast); [lia|lia|].
      exists (slice text i (i + size) :: rest).
      rewrite Hrun, <- app_assoc. simpl.
      rewrite slice_chunk in * by lia.
      split_and!; try done.
      * rewrite Hcat.
        replace (Z.to_nat (i + size)) with (Z.to_nat i + Z.to_nat size)%nat
          by lia.
        rewrite <- drop_drop. apply take_drop.
      * split; [done|lia].
      * intros [|j] c Hj Hnext; simpl in *.
        -- injection Hj as <-. rewrite length_take, length_drop.
           destruct rest as [|r rest]; [simpl in Hnext; lia|].
           assert (Z.of_nat (length text) ≤ i + size → False) as Hin.
           { intros Hx. apply Hnil in Hx. discriminate. }
           lia.
        -- apply (Hlen j c Hj). lia.
      * intros c Hc. destruct rest as [|r rest].
        -- simpl in Hc. injection Hc as <-.
           rewrite length_take, length_drop. lia.
        -- apply Hlast. by rewrite last_cons_cons in Hc.
    + exists []. rewrite app_nil_r, drop_ge by lia.
      split_and!; done.
Qed.

End Chunker.

Lemma chunkText_returns (text : jsstring) (size : Z) (fuel : nat) :
  0 < size → (length text ≤ fuel)%nat →
  ∃ chunks, chunkText fuel text size = Some chunks ∧ concat chunks = text.
Proof.
  intros Hsize Hfuel.
  destruct (chunkText_loop_spec text size Hsize fuel 0 [])
    as (rest & Hrun & Hcat & _); [lia|lia|].
  by exists rest.
Qed.

(** C1: for every text and every positive chunk size, [chunkText]
    returns (with fuel for one loop body per code unit at most) chunks
    whose concatenation in order is the text; every chunk but the last
    has exactly [size] code units, the last one between 1 and [size]; and
    the empty text gives no chunk at all. *)
Theorem chunkText_partition (text : jsstring) (size : Z) (fuel : nat) :
  0 < size →
  (length text ≤ fuel)%nat →
  ∃ chunks,
    chunkText fuel text size = Some chunks
    ∧ concat chunks = text
    ∧ chunk_lengths size chunks
    ∧ last_chunk_length size chunks
    ∧ (text = [] → chunks = []).
Proof.
  intros Hsize Hfuel.
  destruct (chunkText_loop_spec text size Hsize fuel 0 [])
    as (rest & Hrun & Hcat & Hnil & Hlen & Hlast); [lia|lia|].
  exists rest. split_and!; try done.
  intros ->. apply Hnil. simpl. lia.
Qed.

Lemma chunkText_partition_witness :
  ∃ chunks,
    chunkText 7 (str "abcdefg") 3 = Some chunks
    ∧ concat chunks = str "abcdefg"
    ∧ chunk_lengths 3 chunks
    ∧ last_chunk_length 3 chunks
    ∧ (str "abcdefg" = [] → chunks = []).
Proof. apply (chunkText_partition (str "abcdefg") 3 7); [lia | simpl; lia]. Defined.

Lemma chunkText_empty (fuel : nat) (size : Z) : chunkText fuel [] size = Some [].
Proof. by destruct fuel. Qed.

Example chunkText_abcdefg :
  chunkText 3 (str "abcdefg") 3 = Some [str "abc"; str "def"; str "g"].
Proof. reflexivity. Qed.

(** ** The caption normalizer *)

Example stripVtt_blank : stripVttNonContent (str "  ") = [].
Proof. reflexivity. Qed.

Example cleanLine_tags :
  cleanLine (str "a<00:00:07.759><c> b</c>c") = str "a bc".
Proof. reflexivity. Qed.

(** C7: the end-to-end scenario of the specification normalizes to
    "Hello", a newline, "World". *)
Theorem stripVtt_scenario :
  stripVttNonContent scenario = str "Hello" ++ [nl] ++ str "World".
Proof. vm_compute. reflexivity. Qed.

(** C5 as stated fails: a document whose first line contains the marker
    without starting with it is normalized to non-empty text. *)
Lemma stripVtt_marker_not_at_start :
  let input := str "# WEBVTT" ++ [nl; nl; nl; nl] ++ str "Hello" in
  startsWith input (str "WEBVTT") = false
  ∧ stripVttNonContent input = str "Hello"
  ∧ stripVttNonContent input ≠ [].
Proof. vm_compute. split_and!; done. Qed.

(** C5, amended: when the first line of the input does not contain the
    marker "WEBVTT", the normalizer returns the empty text. *)
Theorem stripVtt_no_marker_in_first_line (vttContent : jsstring) :
  includes (firstLine vttContent) (str "WEBVTT") = false →
  stripVttNonContent vttContent = [].
Proof.
  unfold firstLine, stripVttNonContent. intros Hmarker.
  destruct (streq vttContent [] || streq (trim vttContent) []); [done|].
  destruct (split nl vttContent) as [|l0 ls]; [done|].
  simpl in *. rewrite Hmarker. simpl. by rewrite orb_true_r.
Qed.

Lemma stripVtt_no_marker_in_first_line_witness :
  stripVttNonContent
    (str "Hello" ++ [nl; nl; nl; nl] ++ str "WEBVTT" ++ [nl] ++ str "World")
  = [].
Proof. apply stripVtt_no_marker_in_first_line. reflexivity. Defined.

(** Splitting at a separator and joining with it again gives the text
    back. *)
Lemma split_nonempty (sep : N) (s : jsstring) : split sep s ≠ [].
Proof.
  destruct s as [|c r]; simpl; [done|].
  destruct (c =? sep)%N; [done|]. by destruct (split sep r).
Qed.

Lemma join_cons (sep l : jsstring) (ls : list jsstring) :
  ls ≠ [] → join sep (l :: ls) = l ++ sep ++ join sep ls.
Proof. by destruct ls. Qed.











Lemma slice_from (A : Type) (a : list A) (n : nat) :
  slice a (Z.of_nat n) (Z.of_nat (length a)) = drop n a.
Proof.
  unfold slice, clampIndex.
  destruct (Z.ltb_spec (Z.of_nat n) 0); [lia|].
  destruct (Z.ltb_spec (Z.of_nat (length a)) 0); [lia|].
  rewrite Z.min_id.
  destruct (Z.le_gt_cases (Z.of_nat n) (Z.of_nat (length a))).
  - rewrite Z.min_l by lia. rewrite Nat2Z.id.
    apply take_ge. rewrite length_drop. lia.
  - rewrite Z.min_r by lia. rewrite Nat2Z.id, !drop_ge by lia.
    by rewrite take_nil.
Qed.






(** ** The cache *)

Lemma cleanup_lookup_Some (now : Z) (m : gmap jsstring SubtitleCache)
    (k : jsstring) (c : SubtitleCache) :
  cleanupExpiredCache now m !! k = Some c
  ↔ m !! k = Some c ∧ now - timestamp c ≤ CACHE_TTL.
Proof.
  unfold cleanupExpiredCache. rewrite map_lookup_filter_Some. simpl.
  unfold expired. rewrite Z.gtb_ltb.
  destruct (Z.ltb_spec CACHE_TTL (now - timestamp c)); simpl; intuition lia.
Qed.

Lemma cleanup_lookup_None (now : Z) (m : gmap jsstring SubtitleCache)
    (k : jsstring) :
  cleanupExpiredCache now m !! k = None
  ↔ ∀ c, m !! k = Some c → now - timestamp c > CACHE_TTL.
Proof.
  rewrite eq_None_not_Some. split.
  - intros Hnone c Hc.
    destruct (Z.le_gt_cases (now - timestamp c) CACHE_TTL) as [Hle|]; [|lia].
    destruct Hnone. exists c. by apply cleanup_lookup_Some.
  - intros Hall [c Hc]. apply cleanup_lookup_Some in Hc as [Hc Hle].
    specialize (Hall c Hc). lia.
Qed.

(** C4 as stated fails: an entry whose age is exactly the TTL survives
    the sweep. *)
Lemma sweep_keeps_entry_aged_ttl :
  let cache := {| url := str "u"; content := str "abc";
                  chunks := [str "abc"]; timestamp := 0 |} in
  let now := CACHE_TTL in
  now - timestamp cache >= CACHE_TTL
  ∧ cleanupExpiredCache now {[ str "k" := cache ]} !! str "k" = Some cache.
Proof.
  simpl. split; [lia|].
  apply cleanup_lookup_Some. split; [apply lookup_singleton_eq|simpl; lia].
Qed.

Ltac unfold_M :=
  unfold cleanupExpiredCacheM, downloadSubtitles, lengthOf, try_catch,
    mbind, M_bind, bind, mret, M_ret, ret, throw, getState, putCache,
    logSpawn, liftOutcome, liftFuel in *.

(** ** Texts and numbers in the footer *)

(** A text that lacks one of the code units of a needle does not include
    the needle. *)
Lemma startsWith_elem (s p : jsstring) (x : N) :
  startsWith s p = true → x ∈ p → x ∈ s.
Proof.
  revert s. induction p as [|c p IH]; intros s Hp Hx.
  - by apply elem_of_nil in Hx.
  - destruct s as [|d s]; [done|]. simpl in Hp.
    apply andb_true_iff in Hp as [Hcd Hp]. apply N.eqb_eq in Hcd as ->.
    apply elem_of_cons in Hx as [->|Hx]; [left|right; by apply IH].
Qed.

Lemma includes_elem (s needle : jsstring) (x : N) :
  includes s needle = true → x ∈ needle → x ∈ s.
Proof.
  induction s as [|d s IH]; simpl; intros Hinc Hx.
  - rewrite orb_false_r in Hinc. by apply (startsWith_elem [] needle).
  - apply orb_true_iff in Hinc as [Hhere|Hlater].
    + by apply (startsWith_elem (d :: s) needle).
    + right. by apply IH.
Qed.

Lemma elem_existsb (x : N) (s : jsstring) :
  x ∈ s ↔ existsb (N.eqb x) s = true.
Proof.
  rewrite existsb_exists, list_elem_of_In. split.
  - intros Hx. exists x. by rewrite N.eqb_refl.
  - intros (y & Hy & Hxy). by apply N.eqb_eq in Hxy as ->.
Qed.

Lemma digits_range (d : Decimal.uint) :
  Forall (λ c, (48 ≤ c ≤ 57)%N) (digits d).
Proof. induction d; simpl; constructor; (lia || done). Qed.

Lemma numberToString_digits (n : Z) :
  0 ≤ n → Forall (λ c, (48 ≤ c ≤ 57)%N) (numberToString n).
Proof.
  destruct n as [|p|p]; simpl; intros Hn; [|apply digits_range|lia].
  constructor; [lia|constructor].
Qed.

Lemma numberToString_no_x (n : Z) : 0 ≤ n → 120%N ∉ numberToString n.
Proof.
  intros Hn Hx. pose proof (numberToString_digits n Hn) as Hd.
  rewrite Forall_forall in Hd. specialize (Hd _ Hx). lia.
Qed.

(** The footer of the last chunk has no "x" in it, so it cannot include
    the words of the next-chunk hint. *)
Lemma last_footer_no_hint (c : SubtitleCache) (chunk_index chunkLength : Z) :
  chunk_index = Z.of_nat (length (chunks c)) - 1 →
  0 ≤ chunk_index → 0 ≤ chunkLength →
  includes (paginationFooter c chunk_index chunkLength)
    (str "To get the next chunk") = false.
Proof.
  intros Hlast Hidx Hlen.
  apply not_true_is_false. intros Hinc.
  apply (includes_elem _ _ 120%N) in Hinc; [|by apply elem_existsb].
  unfold paginationFooter in Hinc.
  destruct (Z.ltb_spec chunk_index (Z.of_nat (length (chunks c)) - 1));
    [lia|].
  rewrite !elem_of_app in Hinc.
  destruct_or!;
    first [ by apply elem_existsb in Hinc
          | by eapply numberToString_no_x; [|eassumption]; lia ].
Qed.

Section ServerProperties.

Variable getCacheKey : jsstring → jsstring.

Lemma sweepThenGetOrPopulate_hit fuel env u size st c :
  cleanupExpiredCache (now_sweep env) (subtitleCache st) !! getCacheKey u
  = Some c →
  sweepThenGetOrPopulate getCacheKey fuel env u size st = Some (Returned c, swept env st).
Proof.
  intros Hc. unfold sweepThenGetOrPopulate, getOrPopulate.
  unfold_M. simpl. by rewrite Hc.
Qed.

Lemma captions_Returned (env : Env) (u : jsstring)
    (files : list (jsstring * jsstring)) :
  captions env u = Returned files ↔ download env u = Downloaded files.
Proof.
  unfold captions. destruct (download env u); split; intros Heq; by simplify_eq.
Qed.

Lemma captions_Thrown (env : Env) (u err : jsstring) :
  captions env u = Thrown err
  ↔ download env u = TempDirFailed err ∨ download env u = FailedAfterSpawn err.
Proof.
  unfold captions. destruct (download env u); split.
  all: try (intros [Heq|Heq]; by simplify_eq).
  all: intros Heq; simplify_eq; auto.
Qed.

Lemma sweepThenGetOrPopulate_miss fuel env u size st :
  cleanupExpiredCache (now_sweep env) (subtitleCache st) !! getCacheKey u
  = None →
  sweepThenGetOrPopulate getCacheKey fuel env u size st
  = let sweptCache :=
      cleanupExpiredCache (now_sweep env) (subtitleCache st) in
    match download env u with
    | TempDirFailed err => Some (Thrown err, swept env st)
    | FailedAfterSpawn err =>
        Some (Thrown err,
              {| subtitleCache := sweptCache; spawned := spawned st ++ [u] |})
    | Downloaded files =>
        match chunkText fuel (readCaptions files) size with
        | None => None
        | Some chunks =>
            let cache := {| url := u; content := readCaptions files;
                            chunks := chunks; timestamp := now_store env |} in
            Some (Returned cache,
                  {| subtitleCache := <[getCacheKey u := cache]> sweptCache;
                     spawned := spawned st ++ [u] |})
        end
    end.
Proof.
  intros Hc. unfold sweepThenGetOrPopulate, getOrPopulate.
  unfold_M. simpl. rewrite Hc.
  destruct (download env u) as [err|err|files]; try done.
  simpl. by destruct (chunkText fuel (readCaptions files) size).
Qed.

(** The entry a request works on is the one the cache holds for the URL
    when the request is done. *)
Lemma returned_entry_is_cached fuel env u size st c st' :
  sweepThenGetOrPopulate getCacheKey fuel env u size st = Some (Returned c, st') →
  subtitleCache st' !! getCacheKey u = Some c.
Proof.
  destruct (cleanupExpiredCache (now_sweep env) (subtitleCache st)
              !! getCacheKey u) as [c0|] eqn:Hlook.
  - rewrite (sweepThenGetOrPopulate_hit _ _ _ _ _ _ Hlook).
    intros [= <- <-]. done.
  - rewrite (sweepThenGetOrPopulate_miss _ _ _ _ _ Hlook). simpl.
    destruct (download env u) as [err|err|files]; try done.
    destruct (chunkText fuel (readCaptions files) size); [|done].
    intros [= <- <-]. simpl. apply lookup_insert_eq.
Qed.

(** C4, amended: the sweep run at time [now] removes every entry whose
    age [now - timestamp] is strictly greater than the TTL and keeps,
    unchanged, every entry whose age is at most the TTL; so a request
    with a positive chunk size, swept when the entry of its URL is older
    than the TTL, does not return that entry but runs the download
    again: [yt-dlp] is spawned unless creating the temporary directory
    already fails; when the download succeeds, a new entry is stored and
    returned whose timestamp is the clock reading at the store, later
    than the old one when the clock has not gone back since the sweep;
    when the download fails, the request throws what the download threw
    and the cache holds no entry for the URL. *)
Theorem sweep_expiry_and_refetch (now : Z) (m : gmap jsstring SubtitleCache) :
  (∀ k c, m !! k = Some c → now - timestamp c > CACHE_TTL →
          cleanupExpiredCache now m !! k = None)
  ∧ (∀ k c, m !! k = Some c → now - timestamp c ≤ CACHE_TTL →
            cleanupExpiredCache now m !! k = Some c)
  ∧ (∀ fuel env u size st c,
       subtitleCache st = m → now_sweep env = now →
       m !! getCacheKey u = Some c → now - timestamp c > CACHE_TTL →
       0 < size →
       (∀ files, download env u = Downloaded files →
                 (length (readCaptions files) ≤ fuel)%nat) →
       ∃ o st',
         sweepThenGetOrPopulate getCacheKey fuel env u size st = Some (o, st')
         ∧ match download env u with
           | TempDirFailed err =>
               o = Thrown err
               ∧ spawned st' = spawned st
               ∧ subtitleCache st' !! getCacheKey u = None
           | FailedAfterSpawn err =>
               o = Thrown err
               ∧ spawned st' = spawned st ++ [u]
               ∧ subtitleCache st' !! getCacheKey u = None
           | Downloaded files =>
               spawned st' = spawned st ++ [u]
               ∧ ∃ c',
                   o = Returned c'
                   ∧ subtitleCache st' !! getCacheKey u = Some c'
                   ∧ content c' = readCaptions files
                   ∧ timestamp c' = now_store env
                   ∧ (now_sweep env ≤ now_store env →
                      timestamp c < timestamp c')
           end).
Proof.
  split_and!.
  - intros k c Hc Hold. apply cleanup_lookup_None.
    intros c0 Hc0. by simplify_eq.
  - intros k c Hc Hyoung. by apply cleanup_lookup_Some.
  - intros fuel env u size st c <- <- Hc Hold Hsize Hfuel.
    assert (cleanupExpiredCache (now_sweep env) (subtitleCache st)
              !! getCacheKey u = None) as Hgone.
    { apply cleanup_lookup_None. intros c0 Hc0. by simplify_eq. }
    rewrite (sweepThenGetOrPopulate_miss _ _ _ _ _ Hgone). simpl.
    destruct (download env u) as [err|err|files].
    + by eexists _, _.
    + by eexists _, _.
    + destruct (chunkText_returns (readCaptions files) size fuel Hsize
                  (Hfuel files eq_refl)) as (cs & -> & _).
      eexists _, _. split; [done|]. simpl. split; [done|].
      eexists. split_and!; [done|apply lookup_insert_eq|done|done|].
      simpl. unfold CACHE_TTL in *. lia.
Qed.

(** ** The chunk size of a request *)

Lemma chunkSizeOrDefault_positive (chunk_size : option Z) :
  (∀ n, chunk_size = Some n → 0 ≤ n) → 0 < chunkSizeOrDefault chunk_size.
Proof.
  intros Hnonneg. unfold chunkSizeOrDefault, DEFAULT_CHUNK_SIZE.
  destruct chunk_size as [n|]; [|lia].
  specialize (Hnonneg n eq_refl).
  destruct (Z.eqb_spec n 0); lia.
Qed.

Lemma readCaptions_length (files : list (jsstring * jsstring)) :
  ∀ acc,
    (length acc + 22 * length files
     ≤ length (fold_left
                 (λ content '(file, fileContent),
                    let cleanedContent := stripVttNonContent fileContent in
                    content ++ file ++ [nl] ++ str "===================="
                    ++ [nl] ++ cleanedContent)
                 files acc))%nat.
Proof.
  induction files as [|[file fileContent] files IH]; intros acc; simpl; [lia|].
  etrans; [|apply IH]. rewrite !length_app. simpl. lia.
Qed.

Lemma readCaptions_nonempty (files : list (jsstring * jsstring)) :
  files ≠ [] → readCaptions files ≠ [].
Proof.
  intros Hfiles Hnil.
  assert (22 * length files ≤ length (readCaptions files))%nat as Hlen
    by apply (readCaptions_length files []).
  rewrite Hnil in Hlen. destruct files; [done|simpl in Hlen; lia].
Qed.

(** ** Pagination *)

Lemma handleGetYoutubeSubtitles_out_of_range fuel env u chunk_index
    chunk_size st c st' :
  sweepThenGetOrPopulate getCacheKey fuel env u
    (chunkSizeOrDefault chunk_size) st = Some (Returned c, st') →
  chunk_index < 0 ∨ Z.of_nat (length (chunks c)) ≤ chunk_index →
  handleGetYoutubeSubtitles getCacheKey fuel env u chunk_index chunk_size st
  = Some (Returned {| text := Some (outOfRangeText c chunk_index);
                      isError := true |}, st').
Proof.
  intros Hrun Hout. unfold handleGetYoutubeSubtitles.
  unfold sweepThenGetOrPopulate in Hrun. unfold_M. simpl in *.
  rewrite Hrun.
  destruct (Z.ltb_spec chunk_index 0); [done|].
  destruct (Z.leb_spec (Z.of_nat (length (chunks c))) chunk_index); [done|lia].
Qed.

Lemma handleGetYoutubeSubtitles_in_range fuel env u chunk_index
    chunk_size st c st' :
  sweepThenGetOrPopulate getCacheKey fuel env u
    (chunkSizeOrDefault chunk_size) st = Some (Returned c, st') →
  0 ≤ chunk_index < Z.of_nat (length (chunks c)) →
  ∃ chunk,
    chunks c !! Z.to_nat chunk_index = Some chunk
    ∧ handleGetYoutubeSubtitles getCacheKey fuel env u chunk_index
        chunk_size st
      = Some (Returned
                {| text := Some (chunk ++ paginationFooter c chunk_index
                                            (Z.of_nat (length chunk)));
                   isError := false |}, st').
Proof.
  intros Hrun Hin.
  destruct (lookup_lt_is_Some_2 (chunks c) (Z.to_nat chunk_index))
    as [chunk Hchunk]; [lia|].
  exists chunk. split; [done|].
  unfold handleGetYoutubeSubtitles.
  unfold sweepThenGetOrPopulate in Hrun. unfold_M. simpl in *.
  rewrite Hrun.
  destruct (Z.ltb_spec chunk_index 0) as [|_]; [lia|].
  destruct (Z.leb_spec (Z.of_nat (length (chunks c))) chunk_index) as [|_];
    [lia|].
  simpl. unfold index.
  destruct (Z.ltb_spec chunk_index 0) as [|_]; [lia|].
  by rewrite Hchunk.
Qed.

Lemma handleDownloadYoutubeUrl_on_entry fuel env u st c st' :
  sweepThenGetOrPopulate getCacheKey fuel env u DEFAULT_CHUNK_SIZE st
  = Some (Returned c, st') →
  ∃ r,
    handleDownloadYoutubeUrl getCacheKey fuel env u st
    = Some (Returned r, st')
    ∧ isError r = false.
Proof.
  intros Hrun. unfold handleDownloadYoutubeUrl.
  unfold sweepThenGetOrPopulate in Hrun. unfold_M. simpl in *.
  rewrite Hrun.
  destruct (chunks c) as [|chunk0 rest] eqn:Hchunks; [by eexists|].
  destruct (1 <? Z.of_nat (length (chunk0 :: rest))); by eexists.
Qed.

(** C2: when a request for a URL has left an entry in the cache and a
    second request for the same URL is swept at a time when that entry
    has not expired, the second request works on that very entry (same
    key, URL, content, chunks and timestamp) whatever chunk size it
    asks for, the entry stays in the cache, and [yt-dlp] is not spawned
    again; both handlers return from the state this leaves. *)
Theorem second_request_reuses_entry fuel1 fuel2 env1 env2 u size1 size2
    st0 st1 c :
  sweepThenGetOrPopulate getCacheKey fuel1 env1 u size1 st0
  = Some (Returned c, st1) →
  now_sweep env2 - timestamp c ≤ CACHE_TTL →
  ∃ st2,
    sweepThenGetOrPopulate getCacheKey fuel2 env2 u size2 st1
    = Some (Returned c, st2)
    ∧ subtitleCache st2 !! getCacheKey u = Some c
    ∧ spawned st2 = spawned st1
    ∧ (∃ r, handleDownloadYoutubeUrl getCacheKey fuel2 env2 u st1
            = Some (Returned r, st2))
    ∧ (∀ chunk_index chunk_size,
         ∃ r, handleGetYoutubeSubtitles getCacheKey fuel2 env2 u chunk_index
                chunk_size st1 = Some (Returned r, st2)).
Proof.
  intros Hfirst Hfresh.
  apply returned_entry_is_cached in Hfirst.
  assert (cleanupExpiredCache (now_sweep env2) (subtitleCache st1)
            !! getCacheKey u = Some c) as Hkept
    by by apply cleanup_lookup_Some.
  pose proof (λ size, sweepThenGetOrPopulate_hit fuel2 env2 u size st1 c Hkept)
    as Hhit.
  exists (swept env2 st1). split_and!; try done.
  - destruct (handleDownloadYoutubeUrl_on_entry _ _ _ _ _ _ (Hhit _))
      as (r & -> & _). by eexists.
  - intros chunk_index chunk_size.
    destruct (Z.lt_ge_cases chunk_index 0) as [Hneg|Hpos];
      [|destruct (Z.le_gt_cases (Z.of_nat (length (chunks c))) chunk_index)].
    + rewrite (handleGetYoutubeSubtitles_out_of_range _ _ _ _ _ _ _ _
                 (Hhit _)) by lia. by eexists.
    + rewrite (handleGetYoutubeSubtitles_out_of_range _ _ _ _ _ _ _ _
                 (Hhit _)) by lia. by eexists.
    + destruct (handleGetYoutubeSubtitles_in_range _ _ _ chunk_index
                  chunk_size _ _ _ (Hhit _)) as (chunk & _ & ->); [lia|].
      by eexists.
Qed.

(** C8: for the entry a [get_youtube_subtitles] request works on, an
    integer chunk index below 0 or at least the number of chunks (so -1
    and the number of chunks itself) gives a returned result, not an
    exception, with [isError] set and a text that echoes the index (in
    plain decimal for an index of magnitude at most 2^53) and names the
    range from 0 to the number of chunks minus one; an index inside the
    range gives a result without [isError]. *)
Theorem chunk_index_validation fuel env u chunk_index chunk_size st c st' :
  sweepThenGetOrPopulate getCacheKey fuel env u
    (chunkSizeOrDefault chunk_size) st = Some (Returned c, st') →
  let total := Z.of_nat (length (chunks c)) in
  ((chunk_index < 0 ∨ total ≤ chunk_index) →
   ∃ echo,
     handleGetYoutubeSubtitles getCacheKey fuel env u chunk_index chunk_size
       st
     = Some (Returned
               {| text := Some (str "Error: chunk_index " ++ echo
                                ++ str " is out of range. Available chunks: 0-"
                                ++ numberToString (total - 1));
                  isError := true |}, st')
     ∧ (- 2 ^ 53 ≤ chunk_index ≤ 2 ^ 53
        → echo = numberToString chunk_index))
  ∧ (0 ≤ chunk_index < total →
     ∃ r,
       handleGetYoutubeSubtitles getCacheKey fuel env u chunk_index
         chunk_size st = Some (Returned r, st')
       ∧ isError r = false).
Proof.
  intros Hrun total. split.
  - intros Hout. exists (numberToString chunk_index). split; [|done].
    by apply handleGetYoutubeSubtitles_out_of_range.
  - intros Hin.
    destruct (handleGetYoutubeSubtitles_in_range _ _ _ _ _ _ _ _ Hrun Hin)
      as (chunk & _ & ->).
    by eexists.
Qed.

(** C9: for the entry a [get_youtube_subtitles] request works on and a
    valid chunk index, the response is the chunk followed by a footer
    giving the 1-based chunk number, the number of chunks and the length
    of the chunk; at the last index the footer ends with "This is the
    last chunk." and does not include the next-chunk hint, at an earlier
    index it ends with the hint naming the index that follows. *)
Theorem chunk_footer fuel env u chunk_index chunk_size st c st' :
  sweepThenGetOrPopulate getCacheKey fuel env u
    (chunkSizeOrDefault chunk_size) st = Some (Returned c, st') →
  let total := Z.of_nat (length (chunks c)) in
  0 ≤ chunk_index < total →
  ∃ chunk ending,
    chunks c !! Z.to_nat chunk_index = Some chunk
    ∧ let footer :=
        ([nl; nl] ++ str "=== PAGINATION INFO ===" ++ [nl])
        ++ (str "This is chunk " ++ numberToString (chunk_index + 1)
            ++ str " of " ++ numberToString total
            ++ str " (" ++ numberToString (Z.of_nat (length chunk))
            ++ str " characters)" ++ [nl])
        ++ (str "Total content length: "
            ++ numberToString (Z.of_nat (length (content c)))
            ++ str " characters" ++ [nl])
        ++ ending in
      handleGetYoutubeSubtitles getCacheKey fuel env u chunk_index
        chunk_size st
      = Some (Returned {| text := Some (chunk ++ footer);
                          isError := false |}, st')
      ∧ (chunk_index = total - 1 →
         ending = str "This is the last chunk."
         ∧ includes footer (str "To get the next chunk") = false)
      ∧ (chunk_index < total - 1 →
         ending
         = str "To get the next chunk, use: get_youtube_subtitles with chunk_index="
           ++ numberToString (chunk_index + 1)).
Proof.
  intros Hrun total Hin.
  destruct (handleGetYoutubeSubtitles_in_range _ _ _ _ _ _ _ _ Hrun Hin)
    as (chunk & Hchunk & Hres).
  exists chunk,
    (if chunk_index <? total - 1
     then nextChunkHint ++ numberToString (chunk_index + 1)
     else lastChunkMarker).
  split; [done|]. simpl. split_and!.
  - exact Hres.
  - intros Hlast.
    pose proof (last_footer_no_hint c chunk_index (Z.of_nat (length chunk))
                  Hlast ltac:(lia) ltac:(lia)) as Hnone.
    unfold paginationFooter in Hnone. fold total in Hnone.
    destruct (Z.ltb_spec chunk_index (total - 1)); [lia|]. done.
  - intros Hearlier.
    destruct (Z.ltb_spec chunk_index (total - 1)); [done|lia].
Qed.

(** C10: when the download gives the empty text, the entry stored has no
    chunk at all, index 0 of its chunks is [undefined], and the
    successful [download_youtube_url] response carries that value as
    its text. *)
Theorem empty_download_first_chunk fuel env u st files :
  cleanupExpiredCache (now_sweep env) (subtitleCache st) !! getCacheKey u
  = None →
  captions env u = Returned files →
  readCaptions files = [] →
  ∃ c st',
    handleDownloadYoutubeUrl getCacheKey fuel env u st
    = Some (Returned {| text := None; isError := false |}, st')
    ∧ subtitleCache st' !! getCacheKey u = Some c
    ∧ content c = []
    ∧ length (chunks c) = 0%nat
    ∧ index (chunks c) 0 = None.
Proof.
  intros Hmiss Hfiles%captions_Returned Hempty.
  pose proof (sweepThenGetOrPopulate_miss fuel env u DEFAULT_CHUNK_SIZE st
                Hmiss) as Hrun.
  rewrite Hfiles, Hempty in Hrun. simpl in Hrun.
  rewrite chunkText_empty in Hrun.
  eexists _, _. split.
  - unfold handleDownloadYoutubeUrl.
    unfold sweepThenGetOrPopulate in Hrun. unfold_M. simpl in *.
    rewrite Hrun. simpl. reflexivity.
  - simpl. split_and!; [apply lookup_insert_eq|done..].
Qed.

End ServerProperties.

(** ** Closed instances *)

Lemma sampleState_hit (now : Z) (files : list (jsstring * jsstring))
    (fuel : nat) (size : Z) :
  now ≤ 1000 + CACHE_TTL →
  sweepThenGetOrPopulate id fuel (sampleEnv now files) sampleUrl size
    sampleState
  = Some (Returned sampleEntry, swept (sampleEnv now files) sampleState).
Proof.
  intros Hnow. apply sweepThenGetOrPopulate_hit.
  apply cleanup_lookup_Some. split; [apply lookup_singleton_eq|simpl; lia].
Qed.

Lemma second_request_reuses_entry_witness :
  ∃ st2,
    sweepThenGetOrPopulate id 0 (sampleEnv 3000 []) sampleUrl 7
      (swept (sampleEnv 2000 []) sampleState)
    = Some (Returned sampleEntry, st2)
    ∧ subtitleCache st2 !! id sampleUrl = Some sampleEntry
    ∧ spawned st2 = spawned (swept (sampleEnv 2000 []) sampleState)
    ∧ (∃ r, handleDownloadYoutubeUrl id 0 (sampleEnv 3000 []) sampleUrl
              (swept (sampleEnv 2000 []) sampleState)
            = Some (Returned r, st2))
    ∧ (∀ chunk_index chunk_size,
         ∃ r, handleGetYoutubeSubtitles id 0 (sampleEnv 3000 []) sampleUrl
                chunk_index chunk_size (swept (sampleEnv 2000 []) sampleState)
              = Some (Returned r, st2)).
Proof.
  apply (second_request_reuses_entry id 0 0 (sampleEnv 2000 [])
           (sampleEnv 3000 []) sampleUrl DEFAULT_CHUNK_SIZE 7 sampleState).
  - apply sampleState_hit. unfold CACHE_TTL. lia.
  - unfold CACHE_TTL. simpl. lia.
Defined.

Lemma sweep_expiry_and_refetch_witness :
  let env := sampleEnv (1001 + CACHE_TTL) oneFile in
  ∃ o st',
    sweepThenGetOrPopulate id 100 env sampleUrl DEFAULT_CHUNK_SIZE sampleState
    = Some (o, st')
    ∧ spawned st' = spawned sampleState ++ [sampleUrl]
    ∧ ∃ c',
        o = Returned c'
        ∧ subtitleCache st' !! id sampleUrl = Some c'
        ∧ content c' = readCaptions oneFile
        ∧ timestamp c' = now_store env
        ∧ (now_sweep env ≤ now_store env
           → timestamp sampleEntry < timestamp c').
Proof.
  intros env.
  apply (proj2 (proj2 (sweep_expiry_and_refetch id (1001 + CACHE_TTL)
                         (subtitleCache sampleState)))
           100%nat env sampleUrl DEFAULT_CHUNK_SIZE sampleState sampleEntry).
  - reflexivity.
  - reflexivity.
  - apply lookup_singleton_eq.
  - simpl. lia.
  - unfold DEFAULT_CHUNK_SIZE. lia.
  - intros files [= <-]. vm_compute. lia.
Defined.



Lemma chunk_index_validation_witness :
  let env := sampleEnv 2000 [] in
  handleGetYoutubeSubtitles id 0 env sampleUrl (-1) None sampleState
  = Some (Returned
            {| text := Some (str "Error: chunk_index -1 is out of range. Available chunks: 0-2");
               isError := true |}, swept env sampleState)
  ∧ handleGetYoutubeSubtitles id 0 env sampleUrl 3 None sampleState
    = Some (Returned
              {| text := Some (str "Error: chunk_index 3 is out of range. Available chunks: 0-2");
                 isError := true |}, swept env sampleState)
  ∧ ∃ r,
      handleGetYoutubeSubtitles id 0 env sampleUrl 2 None sampleState
      = Some (Returned r, swept env sampleState)
      ∧ isError r = false.
Proof.
  intros env.
  assert (sweepThenGetOrPopulate id 0 env sampleUrl (chunkSizeOrDefault None)
            sampleState
          = Some (Returned sampleEntry, swept env sampleState)) as Hhit.
  { apply sampleState_hit. unfold CACHE_TTL. lia. }
  split_and!.
  - destruct (proj1 (chunk_index_validation id 0 env sampleUrl (-1) None
                       sampleState sampleEntry _ Hhit))
      as (echo & Hres & Hecho); [simpl; lia|].
    rewrite Hecho in Hres by lia. exact Hres.
  - destruct (proj1 (chunk_index_validation id 0 env sampleUrl 3 None
                       sampleState sampleEntry _ Hhit))
      as (echo & Hres & Hecho); [simpl; lia|].
    rewrite Hecho in Hres by lia. exact Hres.
  - apply (proj2 (chunk_index_validation id 0 env sampleUrl 2 None
                    sampleState sampleEntry _ Hhit)). simpl. lia.
Defined.

Lemma chunk_footer_witness :
  let env := sampleEnv 2000 [] in
  handleGetYoutubeSubtitles id 0 env sampleUrl 2 None sampleState
  = Some (Returned
            {| text := Some (str "g" ++ [nl; nl]
                             ++ str "=== PAGINATION INFO ===" ++ [nl]
                             ++ str "This is chunk 3 of 3 (1 characters)" ++ [nl]
                             ++ str "Total content length: 7 characters" ++ [nl]
                             ++ str "This is the last chunk.");
               isError := false |}, swept env sampleState).
Proof.
  intros env.
  destruct (chunk_footer id 0 env sampleUrl 2 None sampleState sampleEntry
              (swept env sampleState))
    as (chunk & ending & Hchunk & Hres & Hlast & _).
  - apply sampleState_hit. unfold CACHE_TTL. lia.
  - simpl. lia.
  - simpl in Hchunk. injection Hchunk as <-.
    destruct Hlast as [-> _]; [reflexivity|]. exact Hres.
Defined.

Lemma empty_download_first_chunk_witness :
  ∃ c st',
    handleDownloadYoutubeUrl id 0 (sampleEnv 2000 []) sampleUrl emptyState
    = Some (Returned {| text := None; isError := false |}, st')
    ∧ subtitleCache st' !! id sampleUrl = Some c
    ∧ content c = []
    ∧ length (chunks c) = 0%nat
    ∧ index (chunks c) 0 = None.
Proof.
  apply (empty_download_first_chunk id 0 (sampleEnv 2000 []) sampleUrl
           emptyState []).
  - apply cleanup_lookup_None. intros c Hc. simpl in Hc.
    by rewrite lookup_empty in Hc.
  - reflexivity.
  - reflexivity.
Defined.

(** * Further properties of the code *)

(** ** The chunker *)

Section ChunkerMore.

Variable text : jsstring.
Variable size : Z.
Hypothesis size_pos : 0 < size.

(** Whatever the fuel, a run of the loop that returns has appended the
    slices at [i], [i + size], ... up to the end of the text. *)
Lemma chunkText_loop_sound (fuel : nat) :
  ∀ (i : Z) (acc r : list jsstring),
    0 ≤ i →
    chunkText_loop fuel text size i acc = Some r →
    ∃ rest,
      r = acc ++ rest
      ∧ concat rest = drop (Z.to_nat i) text
      ∧ (Z.of_nat (length text) ≤ i → rest = [])
      ∧ (i ≤ Z.of_nat (length text) →
         Z.of_nat (length rest)
         = (Z.of_nat (length text) - i + size - 1) / size)
      ∧ (∀ (j : nat) c, rest !! j = Some c →
           c = slice text (i + Z.of_nat j * size)
                 (i + Z.of_nat j * size + size)).
Proof using size_pos.
  induction fuel as [|fuel IH]; intros i acc r Hi; simpl;
    destruct (Z.ltb_spec i (Z.of_nat (length text))) as [Hlt|Hge];
    try done.
  - intros [= <-]. exists []. rewrite app_nil_r, drop_ge by lia.
    split_and!; try done.
    intros Hle. symmetry. apply Z.div_small. simpl. lia.
  - intros Hrun.
    destruct (IH (i + size) _ _ ltac:(lia) Hrun)
      as (rest & -> & Hcat & Hnil & Hcount & Hnth).
    exists (slice text i (i + size) :: rest).
    rewrite <- app_assoc. simpl. split_and!; try done.
    + rewrite Hcat, slice_chunk by lia.
      replace (Z.to_nat (i + size)) with (Z.to_nat i + Z.to_nat size)%nat
        by lia.
      rewrite <- drop_drop. apply take_drop.
    + lia.
    + intros _.
      destruct (Z.le_gt_cases (Z.of_nat (length text)) (i + size)) as [Hend|Hmore].
      * rewrite (Hnil Hend). change (Z.of_nat (length [_])) with 1.
        apply (Z.div_unique _ _ 1 (Z.of_nat (length text) - i - 1)); lia.
      * rewrite Nat2Z.inj_succ, Hcount by lia.
        replace (Z.of_nat (length text) - i + size - 1)
          with (Z.of_nat (length text) - (i + size) + size - 1 + 1 * size)
          by lia.
        rewrite Z.div_add by lia. lia.
    + intros [|j] c Hc; simpl in Hc.
      * injection Hc as <-. f_equal; lia.
      * rewrite (Hnth j c Hc). f_equal; lia.
  - intros [= <-]. exists []. rewrite app_nil_r, drop_ge by lia.
    split_and!; try done.
    intros Hle. symmetry. apply Z.div_small. simpl. lia.
Qed.

End ChunkerMore.

(** X1: for a positive chunk size, the number of chunks returned is the
    length of the text divided by the size, rounded up. *)
Theorem chunkText_count (text : jsstring) (size : Z) (fuel : nat)
    (chunks : list jsstring) :
  0 < size →
  chunkText fuel text size = Some chunks →
  Z.of_nat (length chunks) = (Z.of_nat (length text) + size - 1) / size.
Proof.
  intros Hsize Hrun.
  destruct (chunkText_loop_sound text size Hsize fuel 0 [] chunks
              ltac:(lia) Hrun) as (rest & -> & _ & _ & Hcount & _).
  simpl. rewrite Hcount by lia. f_equal. lia.
Qed.

Lemma chunkText_count_witness :
  Z.of_nat (length [str "abc"; str "def"; str "g"]) = (7 + 3 - 1) / 3.
Proof.
  apply (chunkText_count (str "abcdefg") 3 3); [lia|reflexivity].
Defined.

(** X2: for a positive chunk size, chunk number [j] (from 0) is the
    slice of the text from [j * size] to [j * size + size]. *)
Theorem chunkText_nth (text : jsstring) (size : Z) (fuel : nat)
    (chunks : list jsstring) (j : nat) (c : jsstring) :
  0 < size →
  chunkText fuel text size = Some chunks →
  chunks !! j = Some c →
  c = slice text (Z.of_nat j * size) (Z.of_nat j * size + size).
Proof.
  intros Hsize Hrun Hc.
  destruct (chunkText_loop_sound text size Hsize fuel 0 [] chunks
              ltac:(lia) Hrun) as (rest & -> & _ & _ & _ & Hnth).
  simpl in Hc. by rewrite (Hnth j c Hc).
Qed.

Lemma chunkText_nth_witness :
  str "def" = slice (str "abcdefg") (Z.of_nat 1 * 3) (Z.of_nat 1 * 3 + 3).
Proof.
  apply (chunkText_nth (str "abcdefg") 3 3 [str "abc"; str "def"; str "g"] 1);
    [lia|reflexivity|reflexivity].
Defined.

(** X3: a non-empty text no longer than the (positive) chunk size comes
    back as one chunk, the text itself, after one loop body. *)
Theorem chunkText_single (text : jsstring) (size : Z) (fuel : nat) :
  text ≠ [] →
  Z.of_nat (length text) ≤ size →
  chunkText (S fuel) text size = Some [text].
Proof.
  intros Hne Hlen.
  assert (0 < Z.of_nat (length text)) as Hpos.
  { destruct text; [done|simpl; lia]. }
  unfold chunkText. simpl.
  destruct (Z.ltb_spec 0 (Z.of_nat (length text))); [|lia].
  rewrite (slice_chunk text size ltac:(lia) 0) by lia.
  rewrite drop_0, take_ge by lia.
  destruct fuel; simpl;
    by destruct (Z.ltb_spec (0 + size) (Z.of_nat (length text))); [lia|].
Qed.

Lemma chunkText_single_witness :
  chunkText 1 (str "abc") 15000 = Some [str "abc"].
Proof. apply (chunkText_single (str "abc") 15000 0); [done|simpl; lia]. Defined.

(** ** The caption normalizer *)

Lemma split_no_sep (sep : N) (s : jsstring) :
  Forall (λ l, sep ∉ l) (split sep s).
Proof.
  induction s as [|c r IH]; simpl.
  - repeat constructor. by intros ?%elem_of_nil.
  - destruct (N.eqb_spec c sep) as [->|Hc].
    + constructor; [by intros ?%elem_of_nil|done].
    + pose proof (split_nonempty sep r) as Hne.
      destruct (split sep r) as [|l ls]; [done|]. inversion IH; subst.
      constructor; [|done].
      intros [->|?]%elem_of_cons; done.
Qed.

Lemma split_line (sep : N) (l : jsstring) : sep ∉ l → split sep l = [l].
Proof.
  induction l as [|c r IH]; simpl; [done|]. intros Hsep.
  destruct (N.eqb_spec c sep) as [->|Hc]; [by destruct Hsep; left|].
  rewrite IH; [done|]. intros Hr. apply Hsep. by right.
Qed.

Lemma split_app_sep (sep : N) (l rest : jsstring) :
  sep ∉ l → split sep (l ++ sep :: rest) = l :: split sep rest.
Proof.
  induction l as [|c r IH]; simpl; intros Hsep.
  - by rewrite N.eqb_refl.
  - destruct (N.eqb_spec c sep) as [->|Hc]; [by destruct Hsep; left|].
    rewrite IH; [done|]. intros Hr. apply Hsep. by right.
Qed.

Lemma split_join (sep : N) (lines : list jsstring) :
  lines ≠ [] → Forall (λ l, sep ∉ l) lines →
  split sep (join [sep] lines) = lines.
Proof.
  induction lines as [|l ls IH]; [done|]. intros _ Hall.
  inversion Hall as [|? ? Hl Hls]; subst.
  destruct ls as [|l' ls]; [by apply split_line|].
  rewrite join_cons by done.
  change (l ++ [sep] ++ join [sep] (l' :: ls))
    with (l ++ sep :: join [sep] (l' :: ls)).
  rewrite split_app_sep by done. by rewrite IH.
Qed.

Lemma trimStart_elem (s : jsstring) (x : N) : x ∈ trimStart s → x ∈ s.
Proof.
  induction s as [|c r IH]; simpl; [done|].
  destruct (isWhiteSpace c); [|done]. intros Hx. right. by apply IH.
Qed.

Lemma trimEnd_elem (s : jsstring) (x : N) : x ∈ trimEnd s → x ∈ s.
Proof.
  induction s as [|c r IH]; simpl; [done|].
  destruct (trimEnd r) as [|d r'].
  - destruct (isWhiteSpace c); [by intros ?%elem_of_nil|].
    intros [->|?%elem_of_nil]%elem_of_cons; [left|done].
  - intros [->|Hx]%elem_of_cons; [left|right; by apply IH].
Qed.

Lemma removeAll_go_elem (alts : list (list atom)) (s : jsstring) (x : N) :
  ∀ skip, x ∈ removeAll_go alts skip s → x ∈ s.
Proof.
  induction s as [|c r IH]; intros skip; simpl; [done|].
  destruct skip as [|k].
  - destruct (matchAlt alts (c :: r)) as [n|].
    + intros Hx. right. by apply (IH (Nat.pred n)).
    + intros [->|Hx]%elem_of_cons; [left|right; by apply (IH O)].
  - intros Hx. right. by apply (IH k).
Qed.

Lemma cleaned_elem (line : jsstring) (x : N) :
  x ∈ trim (cleanLine line) → x ∈ line.
Proof.
  unfold trim, cleanLine, removeAll.
  intros Hx%trimEnd_elem%trimStart_elem%removeAll_go_elem%removeAll_go_elem.
  done.
Qed.

Lemma trimEnd_cons (c : N) (r : jsstring) :
  trimEnd r ≠ [] → trimEnd (c :: r) = c :: trimEnd r.
Proof. simpl. by destruct (trimEnd r). Qed.

Lemma trimEnd_idemp (s : jsstring) : trimEnd (trimEnd s) = trimEnd s.
Proof.
  induction s as [|c r IH]; simpl; [done|].
  destruct (trimEnd r) as [|d r'] eqn:Hr.
  - destruct (isWhiteSpace c) eqn:Hc; simpl; [done|by rewrite Hc].
  - rewrite trimEnd_cons; by rewrite IH.
Qed.

Lemma trimStart_head (s : jsstring) :
  match trimStart s with
  | [] => True
  | c :: _ => isWhiteSpace c = false
  end.
Proof.
  induction s as [|c r IH]; simpl; [done|].
  destruct (isWhiteSpace c) eqn:Hc; [done|]. exact Hc.
Qed.

Lemma trimStart_trimEnd (s : jsstring) :
  match s with [] => True | c :: _ => isWhiteSpace c = false end →
  trimStart (trimEnd s) = trimEnd s.
Proof.
  destruct s as [|c r]; simpl; [done|]. intros Hc.
  destruct (trimEnd r); rewrite ?Hc; simpl; by rewrite Hc.
Qed.

Lemma trim_idemp (s : jsstring) : trim (trim s) = trim s.
Proof.
  unfold trim.
  rewrite (trimStart_trimEnd (trimStart s) (trimStart_head s)).
  apply trimEnd_idemp.
Qed.

(** What the first loop lets through: a content line without "-->",
    "align:" or "position:", cleaned of its tags and trimmed, when
    something is left of it. *)
Lemma textLines_provenance (contentLines : list jsstring) :
  Forall
    (λ out, ∃ line,
       line ∈ contentLines
       ∧ includes line (str "-->") = false
       ∧ includes line (str "align:") = false
       ∧ includes line (str "position:") = false
       ∧ out = trim (cleanLine line)
       ∧ out ≠ [])
    (textLines contentLines).
Proof.
  induction contentLines as [|line rest IH]; simpl; [constructor|].
  assert (Forall
    (λ out, ∃ line0,
       line0 ∈ line :: rest
       ∧ includes line0 (str "-->") = false
       ∧ includes line0 (str "align:") = false
       ∧ includes line0 (str "position:") = false
       ∧ out = trim (cleanLine line0)
       ∧ out ≠ [])
    (textLines rest)) as IH'.
  { eapply Forall_impl; [exact IH|].
    intros out (l0 & Hin & H). exists l0. split; [by right|done]. }
  destruct (includes line (str "-->")) eqn:Harrow; [done|].
  destruct (includes line (str "align:")) eqn:Halign; [done|].
  destruct (includes line (str "position:")) eqn:Hpos; [done|].
  simpl. destruct (streq (trim line) []); [done|].
  unfold streq. case_bool_decide as Hblank; simpl; [done|].
  constructor; [|done].
  exists line. split_and!; try done. left.
Qed.

Lemma uniqueLines_from_Forall (P : jsstring → Prop) (lines : list jsstring) :
  ∀ prev, Forall P lines → Forall P (uniqueLines_from prev lines).
Proof.
  induction lines as [|line rest IH]; intros prev Hall; simpl; [done|].
  inversion Hall; subst.
  destruct prev as [p|]; [destruct (negb (streq line p))|];
    try constructor; auto.
Qed.

Lemma uniqueLines_from_no_adjacent (lines : list jsstring) :
  ∀ prev,
    no_adjacent_duplicates (uniqueLines_from prev lines)
    ∧ (∀ p x, prev = Some p →
         head (uniqueLines_from prev lines) = Some x → x ≠ p).
Proof.
  induction lines as [|line rest IH]; intros prev; simpl.
  - split; [intros i a b Ha; by rewrite lookup_nil in Ha|done].
  - destruct (IH (Some line)) as [Hadj Hhead].
    assert (no_adjacent_duplicates
              (line :: uniqueLines_from (Some line) rest)) as Hcons.
    { intros [|i] a b Ha Hb; simpl in *.
      - injection Ha as <-. intros ->.
        apply (Hhead b b eq_refl); [|done].
        by destruct (uniqueLines_from (Some b) rest); simplify_eq/=.
      - by apply (Hadj i). }
    destruct prev as [p|]; [|split; [done|by intros]].
    unfold streq. case_bool_decide as Heq; simpl.
    + subst p. split; [done|]. intros p x [= <-]. by apply Hhead.
    + split; [done|]. by intros p0 x [= <-] [= <-].
Qed.

(** The lines of the output, as a list. *)
Lemma stripVtt_lines (vttContent : jsstring) :
  stripVttNonContent vttContent ≠ [] →
  ∃ contentLines,
    contentLines = drop 4 (split nl vttContent)
    ∧ split nl (stripVttNonContent vttContent)
      = uniqueLines (textLines contentLines).
Proof.
  unfold stripVttNonContent.
  destruct (streq vttContent [] || streq (trim vttContent) []); [done|].
  destruct (_ || _); [done|].
  rewrite (slice_from _ _ 4). intros Hne.
  exists (drop 4 (split nl vttContent)). split; [done|].
  apply split_join.
  - intros Hnil. apply Hne. by rewrite Hnil.
  - apply uniqueLines_from_Forall.
    eapply Forall_impl; [apply textLines_provenance|].
    intros out (line & Hin & _ & _ & _ & -> & _) Hnl.
    apply cleaned_elem in Hnl.
    pose proof (split_no_sep nl vttContent) as Hsplit.
    rewrite Forall_forall in Hsplit.
    apply (Hsplit line); [|done].
    by eapply (subseteq_drop 4).
Qed.

(** X5: no line of the normalizer's output is equal to the line before
    it. *)
Theorem stripVtt_no_adjacent_duplicates (vttContent : jsstring) :
  no_adjacent_duplicates (split nl (stripVttNonContent vttContent)).
Proof.
  destruct (decide (stripVttNonContent vttContent = [])) as [->|Hne].
  - intros [|i] a b Ha Hb; simpl in *; by rewrite ?lookup_nil in Hb.
  - destruct (stripVtt_lines _ Hne) as (contentLines & _ & ->).
    apply uniqueLines_from_no_adjacent.
Qed.

(** X6: when the output is not empty, none of its lines is empty and
    none has white space at either end (trimming it changes nothing). *)
Theorem stripVtt_lines_trimmed (vttContent : jsstring) :
  stripVttNonContent vttContent ≠ [] →
  Forall (λ l, l ≠ [] ∧ trim l = l)
    (split nl (stripVttNonContent vttContent)).
Proof.
  intros Hne. destruct (stripVtt_lines _ Hne) as (contentLines & _ & ->).
  apply uniqueLines_from_Forall.
  eapply Forall_impl; [apply textLines_provenance|].
  intros out (line & _ & _ & _ & _ & -> & Hout).
  split; [done|apply trim_idemp].
Qed.

Lemma stripVtt_lines_trimmed_witness :
  Forall (λ l, l ≠ [] ∧ trim l = l) (split nl (stripVttNonContent scenario)).
Proof. apply stripVtt_lines_trimmed. by vm_compute. Defined.

(** X7: when the output is not empty, each of its lines is the cleaned
    and trimmed form of a line after the first four of the input that
    contains none of "-->", "align:" and "position:". *)
Theorem stripVtt_line_provenance (vttContent : jsstring) :
  stripVttNonContent vttContent ≠ [] →
  Forall
    (λ out, ∃ line,
       line ∈ drop 4 (split nl vttContent)
       ∧ includes line (str "-->") = false
       ∧ includes line (str "align:") = false
       ∧ includes line (str "position:") = false
       ∧ out = trim (cleanLine line))
    (split nl (stripVttNonContent vttContent)).
Proof.
  intros Hne. destruct (stripVtt_lines _ Hne) as (contentLines & -> & ->).
  apply uniqueLines_from_Forall.
  eapply Forall_impl; [apply textLines_provenance|].
  intros out (line & H1 & H2 & H3 & H4 & H5 & _). by exists line.
Qed.

Lemma stripVtt_line_provenance_witness :
  Forall
    (λ out, ∃ line,
       line ∈ drop 4 (split nl scenario)
       ∧ includes line (str "-->") = false
       ∧ includes line (str "align:") = false
       ∧ includes line (str "position:") = false
       ∧ out = trim (cleanLine line))
    (split nl (stripVttNonContent scenario)).
Proof. apply stripVtt_line_provenance. by vm_compute. Defined.

(** X8: the output is not empty only for an input of at least five
    lines whose first line contains "WEBVTT". *)
Theorem stripVtt_nonempty_needs_header (vttContent : jsstring) :
  stripVttNonContent vttContent ≠ [] →
  (5 ≤ length (split nl vttContent))%nat
  ∧ includes (firstLine vttContent) (str "WEBVTT") = true.
Proof.
  unfold stripVttNonContent, firstLine.
  destruct (streq vttContent [] || streq (trim vttContent) []); [done|].
  destruct (Z.ltb_spec (Z.of_nat (length (split nl vttContent))) 4)
    as [|Hlen]; [done|].
  rewrite orb_false_l.
  destruct (split nl vttContent !! 0%nat) as [l0|] eqn:Hl0;
    [|by cbn [from_option negb]].
  cbn [from_option default]. unfold id.
  destruct (includes l0 (str "WEBVTT")); [|done].
  cbn [negb]. rewrite (slice_from _ _ 4). intros Hne. split; [|done].
  destruct (decide (length (split nl vttContent) = 4%nat)) as [Hfour|]; [|lia].
  exfalso. apply Hne. by rewrite drop_ge by lia.
Qed.

Lemma stripVtt_nonempty_needs_header_witness :
  (5 ≤ length (split nl scenario))%nat
  ∧ includes (firstLine scenario) (str "WEBVTT") = true.
Proof. apply stripVtt_nonempty_needs_header. by vm_compute. Defined.

Lemma uniqueLines_from_fixed (lines : list jsstring) :
  ∀ prev,
    no_adjacent_duplicates lines →
    (∀ p x, prev = Some p → head lines = Some x → x ≠ p) →
    uniqueLines_from prev lines = lines.
Proof.
  induction lines as [|line rest IH]; intros prev Hadj Hhead; simpl; [done|].
  assert (uniqueLines_from (Some line) rest = rest) as ->.
  { apply IH.
    - intros i a b Ha Hb. by apply (Hadj (S i)).
    - intros p x [= <-] Hx Heq. subst x.
      destruct rest as [|r rest]; [done|]. injection Hx as ->.
      by apply (Hadj O line line). }
  destruct prev as [p|]; [|done].
  unfold streq. case_bool_decide as Heq; [|done].
  by destruct (Hhead p line eq_refl eq_refl).
Qed.

(** X9: the loop that drops repeated lines finds nothing more to drop in
    its own result. *)
Theorem uniqueLines_idempotent (textLines : list jsstring) :
  uniqueLines (uniqueLines textLines) = uniqueLines textLines.
Proof.
  apply uniqueLines_from_fixed; [|done].
  apply uniqueLines_from_no_adjacent.
Qed.

Lemma matchAlt_no_lt (alts : list (list atom)) (c : N) (r : jsstring) :
  Forall (λ pat, ∃ rest, pat = Lit 60%N :: rest) alts →
  c ≠ 60%N → matchAlt alts (c :: r) = None.
Proof.
  intros Halts Hc.
  induction Halts as [|pat alts' (rest & ->) _ IH]; [done|].
  cbn [matchAlt].
  change (matchSeq (Lit 60%N :: rest) (c :: r))
    with ((60 =? c)%N && matchSeq rest r).
  by destruct (N.eqb_spec 60 c) as [<-|_].
Qed.

Lemma removeAll_go_no_lt (alts : list (list atom)) (s : jsstring) :
  Forall (λ pat, ∃ rest, pat = Lit 60%N :: rest) alts →
  60%N ∉ s → removeAll_go alts O s = s.
Proof.
  intros Halts. induction s as [|c r IH]; [done|]. intros Hlt.
  cbn [removeAll_go]. rewrite matchAlt_no_lt; [|done|].
  - rewrite IH; [done|]. intros Hr. apply Hlt. by right.
  - intros ->. apply Hlt. left.
Qed.

(** X10: a line without the code unit "<" goes through the two tag
    replacements unchanged. *)
Theorem cleanLine_without_tags (line : jsstring) :
  60%N ∉ line → cleanLine line = line.
Proof.
  intros Hlt. unfold cleanLine, removeAll.
  rewrite (removeAll_go_no_lt [timestampTag; lits "</c>"] line);
    [|repeat constructor; by eexists|done].
  apply removeAll_go_no_lt; [repeat constructor; by eexists|done].
Qed.

Lemma cleanLine_without_tags_witness :
  cleanLine (str "Hello > world") = str "Hello > world".
Proof.
  apply cleanLine_without_tags. intros Hin%elem_existsb. by vm_compute in Hin.
Defined.

(** ** The cache and the handlers *)

Lemma chunkText_concat (text : jsstring) (size : Z) (fuel : nat)
    (chunks : list jsstring) :
  0 < size → chunkText fuel text size = Some chunks → concat chunks = text.
Proof.
  intros Hpos Hrun.
  destruct (chunkText_loop_sound text size Hpos fuel 0 [] chunks
              ltac:(lia) Hrun) as (rest & -> & Hcat & _).
  simpl. by rewrite Hcat.
Qed.

(** X11: sweeping at a time and then again at the same or a later time
    leaves what the later sweep alone leaves; in particular a second
    sweep at the same time removes nothing more. *)
Theorem cleanup_twice (now1 now2 : Z) (m : gmap jsstring SubtitleCache) :
  now1 ≤ now2 →
  cleanupExpiredCache now2 (cleanupExpiredCache now1 m)
  = cleanupExpiredCache now2 m.
Proof.
  intros Hle. apply map_eq. intros k. apply option_eq. intros c.
  rewrite !cleanup_lookup_Some. intuition lia.
Qed.

Lemma cleanup_twice_witness :
  cleanupExpiredCache 3000 (cleanupExpiredCache 2000 (subtitleCache sampleState))
  = cleanupExpiredCache 3000 (subtitleCache sampleState).
Proof. apply cleanup_twice. lia. Defined.

(** X12: the content assembled from the caption files is the
    concatenation, in directory order, of one block per file: the file
    name, a newline, twenty "=", a newline and the normalized captions;
    it is empty only when there is no file. *)
Theorem readCaptions_blocks (files : list (jsstring * jsstring)) :
  readCaptions files = concat (map captionBlock files)
  ∧ (readCaptions files = [] ↔ files = []).
Proof.
  assert (∀ acc,
            fold_left
              (λ content '(file, fileContent),
                 let cleanedContent := stripVttNonContent fileContent in
                 content ++ file ++ [nl] ++ str "====================" ++ [nl]
                 ++ cleanedContent)
              files acc
            = acc ++ concat (map captionBlock files)) as Hfold.
  { induction files as [|[file fileContent] files IH]; intros acc; simpl.
    - by rewrite app_nil_r.
    - rewrite IH. unfold captionBlock. simpl. by rewrite <- !app_assoc. }
  split; [apply (Hfold [])|].
  split; [|by intros ->].
  intros Hnil. destruct files as [|f files]; [done|].
  by destruct (readCaptions_nonempty (f :: files)).
Qed.

Section ServerMore.

Variable getCacheKey : jsstring → jsstring.

Lemma sweepThenGetOrPopulate_inv fuel env u size st o st' :
  sweepThenGetOrPopulate getCacheKey fuel env u size st = Some (o, st') →
  let sweptCache :=
    cleanupExpiredCache (now_sweep env) (subtitleCache st) in
  (∃ c, sweptCache !! getCacheKey u = Some c
        ∧ o = Returned c ∧ st' = swept env st)
  ∨ (sweptCache !! getCacheKey u = None
     ∧ ∃ err, captions env u = Thrown err ∧ o = Thrown err
              ∧ st' = {| subtitleCache := sweptCache;
                         spawned := spawned st ++ spawnsOf env u |})
  ∨ (sweptCache !! getCacheKey u = None
     ∧ ∃ files chunks,
         captions env u = Returned files
         ∧ chunkText fuel (readCaptions files) size = Some chunks
         ∧ let c := {| url := u; content := readCaptions files;
                       chunks := chunks; timestamp := now_store env |} in
           o = Returned c
           ∧ st' = {| subtitleCache := <[getCacheKey u := c]> sweptCache;
                      spawned := spawned st ++ spawnsOf env u |}).
Proof.
  intros Hrun sweptCache.
  destruct (sweptCache !! getCacheKey u) as [c|] eqn:Hlook.
  - rewrite (sweepThenGetOrPopulate_hit _ _ _ _ _ _ _ Hlook) in Hrun.
    injection Hrun as <- <-. left. by exists c.
  - rewrite (sweepThenGetOrPopulate_miss _ _ _ _ _ _ Hlook) in Hrun.
    simpl in Hrun. right. unfold captions, spawnsOf, swept in *.
    destruct (download env u) as [err|err|files].
    + injection Hrun as <- <-. left. split; [done|]. exists err.
      by rewrite app_nil_r.
    + injection Hrun as <- <-. left. split; [done|]. by exists err.
    + destruct (chunkText fuel (readCaptions files) size) as [cs|] eqn:Hcs;
        [|done].
      injection Hrun as <- <-. right. split; [done|]. by exists files, cs.
Qed.

Lemma handleGetYoutubeSubtitles_thrown fuel env u chunk_index chunk_size
    st err st' :
  sweepThenGetOrPopulate getCacheKey fuel env u
    (chunkSizeOrDefault chunk_size) st = Some (Thrown err, st') →
  handleGetYoutubeSubtitles getCacheKey fuel env u chunk_index chunk_size st
  = Some (Returned {| text := Some (str "Error getting subtitles: " ++ err);
                      isError := true |}, st').
Proof.
  intros Hrun. unfold handleGetYoutubeSubtitles.
  unfold sweepThenGetOrPopulate in Hrun. unfold_M. simpl in *.
  by rewrite Hrun.
Qed.

Lemma handleGetYoutubeSubtitles_none fuel env u chunk_index chunk_size st :
  sweepThenGetOrPopulate getCacheKey fuel env u
    (chunkSizeOrDefault chunk_size) st = None →
  handleGetYoutubeSubtitles getCacheKey fuel env u chunk_index chunk_size st
  = None.
Proof.
  intros Hrun. unfold handleGetYoutubeSubtitles.
  unfold sweepThenGetOrPopulate in Hrun. unfold_M. simpl in *.
  by rewrite Hrun.
Qed.

Lemma handleDownloadYoutubeUrl_thrown fuel env u st err st' :
  sweepThenGetOrPopulate getCacheKey fuel env u DEFAULT_CHUNK_SIZE st
  = Some (Thrown err, st') →
  handleDownloadYoutubeUrl getCacheKey fuel env u st
  = Some (Returned {| text := Some (str "Error downloading video: " ++ err);
                      isError := true |}, st').
Proof.
  intros Hrun. unfold handleDownloadYoutubeUrl.
  unfold sweepThenGetOrPopulate in Hrun. unfold_M. simpl in *.
  by rewrite Hrun.
Qed.

Lemma handleDownloadYoutubeUrl_none fuel env u st :
  sweepThenGetOrPopulate getCacheKey fuel env u DEFAULT_CHUNK_SIZE st = None →
  handleDownloadYoutubeUrl getCacheKey fuel env u st = None.
Proof.
  intros Hrun. unfold handleDownloadYoutubeUrl.
  unfold sweepThenGetOrPopulate in Hrun. unfold_M. simpl in *.
  by rewrite Hrun.
Qed.

(** Each handler ends in the state its lookup phase ends in, and its
    result is an error result exactly when the download threw or (for
    [get_youtube_subtitles]) the index is outside the chunks. *)
Lemma handleDownloadYoutubeUrl_inv fuel env u st res :
  handleDownloadYoutubeUrl getCacheKey fuel env u st = Some res →
  ∃ r o st',
    res = (Returned r, st')
    ∧ sweepThenGetOrPopulate getCacheKey fuel env u DEFAULT_CHUNK_SIZE st
      = Some (o, st')
    ∧ match o with
      | Thrown err =>
          r = {| text := Some (str "Error downloading video: " ++ err);
                 isError := true |}
      | Returned c => isError r = false
      end.
Proof.
  destruct (sweepThenGetOrPopulate getCacheKey fuel env u DEFAULT_CHUNK_SIZE st)
    as [[[c|err] st']|] eqn:Hrun.
  - destruct (handleDownloadYoutubeUrl_on_entry _ _ _ _ _ _ _ Hrun)
      as (r & -> & Hok).
    intros [= <-]. by exists r, (Returned c), st'.
  - rewrite (handleDownloadYoutubeUrl_thrown _ _ _ _ _ _ Hrun).
    intros [= <-]. by eexists _, (Thrown err), st'.
  - by rewrite (handleDownloadYoutubeUrl_none _ _ _ _ Hrun).
Qed.

Lemma handleGetYoutubeSubtitles_inv fuel env u chunk_index chunk_size st res :
  handleGetYoutubeSubtitles getCacheKey fuel env u chunk_index chunk_size st
  = Some res →
  ∃ r o st',
    res = (Returned r, st')
    ∧ sweepThenGetOrPopulate getCacheKey fuel env u
        (chunkSizeOrDefault chunk_size) st = Some (o, st')
    ∧ match o with
      | Thrown err =>
          r = {| text := Some (str "Error getting subtitles: " ++ err);
                 isError := true |}
      | Returned c =>
          if decide (0 ≤ chunk_index < Z.of_nat (length (chunks c)))
          then isError r = false
          else r = {| text := Some (outOfRangeText c chunk_index);
                      isError := true |}
      end.
Proof.
  destruct (sweepThenGetOrPopulate getCacheKey fuel env u
              (chunkSizeOrDefault chunk_size) st)
    as [[[c|err] st']|] eqn:Hrun.
  - destruct (decide (0 ≤ chunk_index < Z.of_nat (length (chunks c))))
      as [Hin|Hout] eqn:Hdec.
    + destruct (handleGetYoutubeSubtitles_in_range _ _ _ _ _ _ _ _ _ Hrun Hin)
        as (chunk & _ & ->).
      intros [= <-]. eexists _, (Returned c), st'. by rewrite Hdec.
    + rewrite (handleGetYoutubeSubtitles_out_of_range _ _ _ _ _ _ _ _ _ Hrun)
        by lia.
      intros [= <-]. eexists _, (Returned c), st'. by rewrite Hdec.
  - rewrite (handleGetYoutubeSubtitles_thrown _ _ _ _ _ _ _ _ Hrun).
    intros [= <-]. by eexists _, (Thrown err), st'.
  - by rewrite (handleGetYoutubeSubtitles_none _ _ _ _ _ _ Hrun).
Qed.

(** X13: when the URL is not in the swept cache and the download throws,
    both handlers return (they do not throw) an error result carrying
    the text of the exception, and no entry is stored for the URL, so
    the failure is not cached; [yt-dlp] has been spawned once when the
    failure came after [fs.mkdtempSync], and not at all when
    [fs.mkdtempSync] itself threw. *)
Theorem failed_download_is_reported fuel env u chunk_index chunk_size st err :
  cleanupExpiredCache (now_sweep env) (subtitleCache st) !! getCacheKey u
  = None →
  captions env u = Thrown err →
  let st' :=
    {| subtitleCache := cleanupExpiredCache (now_sweep env) (subtitleCache st);
       spawned := spawned st
                  ++ match download env u with
                     | TempDirFailed _ => []
                     | FailedAfterSpawn _ => [u]
                     | Downloaded _ => [u]
                     end |} in
  handleDownloadYoutubeUrl getCacheKey fuel env u st
  = Some (Returned {| text := Some (str "Error downloading video: " ++ err);
                      isError := true |}, st')
  ∧ handleGetYoutubeSubtitles getCacheKey fuel env u chunk_index chunk_size st
    = Some (Returned {| text := Some (str "Error getting subtitles: " ++ err);
                        isError := true |}, st')
  ∧ subtitleCache st' !! getCacheKey u = None.
Proof.
  intros Hmiss Hthrow st'.
  assert (∀ size,
            sweepThenGetOrPopulate getCacheKey fuel env u size st
            = Some (Thrown err, st')) as Hrun.
  { intros size.
    rewrite (sweepThenGetOrPopulate_miss getCacheKey fuel env u size st Hmiss).
    unfold st', swept. simpl.
    apply captions_Thrown in Hthrow as [->| ->]; [|done].
    by rewrite app_nil_r. }
  split_and!.
  - by apply handleDownloadYoutubeUrl_thrown.
  - by apply handleGetYoutubeSubtitles_thrown.
  - done.
Qed.

Lemma download_handler_returns fuel env u st err st' :
  handleDownloadYoutubeUrl getCacheKey fuel env u st = Some (Thrown err, st') →
  False.
Proof.
  intros Hthrown.
  by destruct (handleDownloadYoutubeUrl_inv _ _ _ _ _ Hthrown)
    as (r & o & st'' & ? & _).
Qed.

Lemma get_handler_returns fuel env u chunk_index chunk_size st
    err st' :
  handleGetYoutubeSubtitles getCacheKey fuel env u chunk_index chunk_size st
  = Some (Thrown err, st') →
  False.
Proof.
  intros Hthrown.
  by destruct (handleGetYoutubeSubtitles_inv _ _ _ _ _ _ _ Hthrown)
    as (r & o & st'' & ? & _).
Qed.

(** X14: neither handler ever throws: whatever the cache, the clock and
    the download do, a handler that finishes has returned a result. *)
Theorem handlers_never_throw fuel env u chunk_index chunk_size st err st' :
  handleDownloadYoutubeUrl getCacheKey fuel env u st ≠ Some (Thrown err, st')
  ∧ handleGetYoutubeSubtitles getCacheKey fuel env u chunk_index chunk_size st
    ≠ Some (Thrown err, st').
Proof.
  split; intros Hthrown.
  - by apply (download_handler_returns _ _ _ _ _ _ Hthrown).
  - by apply (get_handler_returns _ _ _ _ _ _ _ _ Hthrown).
Qed.

(** X15: a tool call throws exactly when the tool name is neither
    "download_youtube_url" nor "get_youtube_subtitles"; the exception
    then names the tool and the state is untouched. *)
Theorem callTool_throws_iff_unknown fuel env name args st err st' :
  callTool getCacheKey fuel env name args st = Some (Thrown err, st')
  ↔ name ≠ str "download_youtube_url"
    ∧ name ≠ str "get_youtube_subtitles"
    ∧ err = str "Error: Unknown tool: " ++ name
    ∧ st' = st.
Proof.
  unfold callTool, streq.
  case_bool_decide as Hdl; [|case_bool_decide as Hget].
  - split; [|by intros [? _]].
    intros Hthrown. by destruct (download_handler_returns _ _ _ _ _ _ Hthrown).
  - split; [|by intros (_ & ? & _)].
    intros Hthrown. by destruct (get_handler_returns _ _ _ _ _ _ _ _ Hthrown).
  - unfold throw. split.
    + by intros [= <- <-].
    + by intros (_ & _ & -> & ->).
Qed.

(** X16: a [download_youtube_url] result is an error result exactly
    when the URL was not in the swept cache and the download threw. *)
Theorem download_error_iff fuel env u st r st' :
  handleDownloadYoutubeUrl getCacheKey fuel env u st = Some (Returned r, st') →
  (isError r = true
   ↔ cleanupExpiredCache (now_sweep env) (subtitleCache st) !! getCacheKey u
     = None
     ∧ ∃ err, captions env u = Thrown err).
Proof.
  intros Hres.
  destruct (handleDownloadYoutubeUrl_inv _ _ _ _ _ Hres)
    as (r' & o & st'' & [= <- <-] & Hrun & Ho).
  destruct (sweepThenGetOrPopulate_inv _ _ _ _ _ _ _ Hrun)
    as [(c & Hhit & -> & _)
       |[(Hmiss & err & Herr & -> & _)
        |(Hmiss & files & cs & Hfiles & _ & -> & _)]].
  - rewrite Ho, Hhit. split; [done|]. by intros [? _].
  - subst r. split; [|done]. intros _. split; [done|by exists err].
  - rewrite Ho, Hfiles. split; [done|]. by intros [_ [? ?]].
Qed.

(** X17: for an integer chunk index and a chunk size that is absent or
    not negative, a [get_youtube_subtitles] result is an error result
    exactly when the download threw (the URL not being in the swept
    cache) or the chunk index is outside the chunks of the entry the
    cache then holds for the URL. *)
Theorem get_error_iff fuel env u chunk_index chunk_size st r st' :
  (∀ n, chunk_size = Some n → 0 ≤ n) →
  handleGetYoutubeSubtitles getCacheKey fuel env u chunk_index chunk_size st
  = Some (Returned r, st') →
  (isError r = true
   ↔ (cleanupExpiredCache (now_sweep env) (subtitleCache st) !! getCacheKey u
      = None
      ∧ ∃ err, captions env u = Thrown err)
     ∨ (∃ c, subtitleCache st' !! getCacheKey u = Some c
             ∧ ¬ (0 ≤ chunk_index < Z.of_nat (length (chunks c))))).
Proof.
  intros _ Hres.
  destruct (handleGetYoutubeSubtitles_inv _ _ _ _ _ _ _ Hres)
    as (r' & o & st'' & [= <- <-] & Hrun & Ho).
  pose proof (sweepThenGetOrPopulate_inv _ _ _ _ _ _ _ Hrun) as Hinv.
  destruct o as [c|err].
  - pose proof (returned_entry_is_cached _ _ _ _ _ _ _ _ Hrun) as Hcached.
    assert (¬ (cleanupExpiredCache (now_sweep env) (subtitleCache st)
                 !! getCacheKey u = None
               ∧ ∃ err, captions env u = Thrown err)) as Hnothrow.
    { intros [Hmiss [err Herr]].
      destruct Hinv as [(c0 & Hhit & _)
                       |[(_ & err0 & _ & ? & _)
                        |(_ & files & cs & Hfiles & _)]]; [|done|];
        congruence. }
    destruct (decide (0 ≤ chunk_index < Z.of_nat (length (chunks c))))
      as [Hin|Hout].
    + rewrite Ho. split; [done|].
      intros [?|(c0 & Hc0 & Hc0out)]; [done|]. by simplify_eq.
    + subst r. split; [|done]. intros _. right. by exists c.
  - subst r. split; [|done]. intros _. left.
    destruct Hinv as [(c0 & _ & ? & _)
                     |[(Hmiss & err0 & Herr & _)
                      |(_ & files & cs & _ & _ & ? & _)]]; [done| |done].
    split; [done|by exists err0].
Qed.

Lemma sweepThenGetOrPopulate_spawned fuel env u size st o st' :
  sweepThenGetOrPopulate getCacheKey fuel env u size st = Some (o, st') →
  spawned st'
  = spawned st
    ++ match cleanupExpiredCache (now_sweep env) (subtitleCache st)
             !! getCacheKey u with
       | Some _ => []
       | None => spawnsOf env u
       end.
Proof.
  intros Hrun.
  destruct (sweepThenGetOrPopulate_inv _ _ _ _ _ _ _ Hrun)
    as [(c & -> & _ & ->)
       |[(-> & err & _ & _ & ->)
        |(-> & files & cs & _ & _ & _ & ->)]]; simpl; try done.
  by rewrite app_nil_r.
Qed.

Lemma sweepThenGetOrPopulate_frame fuel env u size st o st' k :
  sweepThenGetOrPopulate getCacheKey fuel env u size st = Some (o, st') →
  k ≠ getCacheKey u →
  subtitleCache st' !! k
  = cleanupExpiredCache (now_sweep env) (subtitleCache st) !! k.
Proof.
  intros Hrun Hk.
  destruct (sweepThenGetOrPopulate_inv _ _ _ _ _ _ _ Hrun)
    as [(c & _ & _ & ->)
       |[(_ & err & _ & _ & ->)
        |(_ & files & cs & _ & _ & _ & ->)]]; simpl; try done.
  by rewrite lookup_insert_ne.
Qed.

Lemma sweepThenGetOrPopulate_consistent fuel env u size st o st' :
  0 < size →
  sweepThenGetOrPopulate getCacheKey fuel env u size st = Some (o, st') →
  cache_consistent getCacheKey (subtitleCache st) →
  cache_consistent getCacheKey (subtitleCache st').
Proof.
  intros Hsize Hrun Hcons.
  assert (cache_consistent getCacheKey
            (cleanupExpiredCache (now_sweep env) (subtitleCache st)))
    as Hswept.
  { intros k c [Hc _]%cleanup_lookup_Some. by apply Hcons. }
  destruct (sweepThenGetOrPopulate_inv _ _ _ _ _ _ _ Hrun)
    as [(c & _ & _ & ->)
       |[(_ & err & _ & _ & ->)
        |(_ & files & cs & _ & Hcs & _ & ->)]]; simpl; try done.
  intros k c. destruct (decide (k = getCacheKey u)) as [->|Hk].
  - rewrite lookup_insert_eq. intros [= <-]. simpl.
    split; [done|]. by apply (chunkText_concat _ size fuel).
  - rewrite lookup_insert_ne by done. apply Hswept.
Qed.

(** X18: a request with a chunk size that is absent or not negative,
    once finished, has called [spawnPromise] for [yt-dlp] exactly once
    when the swept cache had no entry for the URL and [fs.mkdtempSync]
    did not throw, and not at all when the cache had an entry or
    [fs.mkdtempSync] threw. *)
Theorem request_spawns_iff_miss fuel env u chunk_index chunk_size st r st' :
  (∀ n, chunk_size = Some n → 0 ≤ n) →
  handleDownloadYoutubeUrl getCacheKey fuel env u st = Some (Returned r, st')
  ∨ handleGetYoutubeSubtitles getCacheKey fuel env u chunk_index chunk_size st
    = Some (Returned r, st') →
  spawned st'
  = spawned st
    ++ match cleanupExpiredCache (now_sweep env) (subtitleCache st)
             !! getCacheKey u with
       | Some _ => []
       | None =>
           match download env u with
           | TempDirFailed _ => []
           | FailedAfterSpawn _ => [u]
           | Downloaded _ => [u]
           end
       end.
Proof.
  intros _ [Hres|Hres].
  - destruct (handleDownloadYoutubeUrl_inv _ _ _ _ _ Hres)
      as (r' & o & st'' & [= <- <-] & Hrun & _).
    by apply sweepThenGetOrPopulate_spawned in Hrun.
  - destruct (handleGetYoutubeSubtitles_inv _ _ _ _ _ _ _ Hres)
      as (r' & o & st'' & [= <- <-] & Hrun & _).
    by apply sweepThenGetOrPopulate_spawned in Hrun.
Qed.

(** X19: a request that finishes leaves, under every key other than the
    digest of its own URL, exactly what the sweep left there. *)
Theorem request_frame fuel env u chunk_index chunk_size st r st' k :
  handleDownloadYoutubeUrl getCacheKey fuel env u st = Some (Returned r, st')
  ∨ handleGetYoutubeSubtitles getCacheKey fuel env u chunk_index chunk_size st
    = Some (Returned r, st') →
  k ≠ getCacheKey u →
  subtitleCache st' !! k
  = cleanupExpiredCache (now_sweep env) (subtitleCache st) !! k.
Proof.
  intros [Hres|Hres] Hk.
  - destruct (handleDownloadYoutubeUrl_inv _ _ _ _ _ Hres)
      as (r' & o & st'' & [= <- <-] & Hrun & _).
    by eapply sweepThenGetOrPopulate_frame.
  - destruct (handleGetYoutubeSubtitles_inv _ _ _ _ _ _ _ Hres)
      as (r' & o & st'' & [= <- <-] & Hrun & _).
    by eapply sweepThenGetOrPopulate_frame.
Qed.

(** X20: the handlers keep the cache consistent: when every entry sits
    under the digest of its own URL and its chunks concatenate to its
    content, the same holds after any request with a chunk size that is
    absent or not negative, once it has finished. *)
Theorem request_keeps_cache_consistent fuel env u chunk_index chunk_size
    st r st' :
  (∀ n, chunk_size = Some n → 0 ≤ n) →
  cache_consistent getCacheKey (subtitleCache st) →
  handleDownloadYoutubeUrl getCacheKey fuel env u st = Some (Returned r, st')
  ∨ handleGetYoutubeSubtitles getCacheKey fuel env u chunk_index chunk_size st
    = Some (Returned r, st') →
  cache_consistent getCacheKey (subtitleCache st').
Proof.
  intros Hsize%chunkSizeOrDefault_positive Hcons [Hres|Hres].
  - destruct (handleDownloadYoutubeUrl_inv _ _ _ _ _ Hres)
      as (r' & o & st'' & [= <- <-] & Hrun & _).
    by eapply (sweepThenGetOrPopulate_consistent _ _ _ DEFAULT_CHUNK_SIZE).
  - destruct (handleGetYoutubeSubtitles_inv _ _ _ _ _ _ _ Hres)
      as (r' & o & st'' & [= <- <-] & Hrun & _).
    by eapply sweepThenGetOrPopulate_consistent.
Qed.

Lemma handleDownloadYoutubeUrl_text fuel env u st c st' :
  sweepThenGetOrPopulate getCacheKey fuel env u DEFAULT_CHUNK_SIZE st
  = Some (Returned c, st') →
  ∃ r,
    handleDownloadYoutubeUrl getCacheKey fuel env u st
    = Some (Returned r, st')
    ∧ isError r = false
    ∧ (((length (chunks c) ≤ 1)%nat ∧ text r = chunks c !! 0%nat)
       ∨ (∃ chunk0,
            chunks c !! 0%nat = Some chunk0
            ∧ text r = Some (chunk0 ++ paginationFooter c 0
                                         (Z.of_nat (length chunk0))))).
Proof.
  intros Hrun.
  destruct (decide (length (chunks c) ≤ 1)%nat) as [Hshort|Hlong].
  - exists {| text := chunks c !! 0%nat; isError := false |}.
    split; [|split; [done|by left]].
    unfold handleDownloadYoutubeUrl.
    unfold sweepThenGetOrPopulate in Hrun. unfold_M.
    cbn -[str numberToString Z.of_nat Z.ltb Z.sub Z.add index] in *.
    rewrite Hrun.
    destruct (Z.ltb_spec 1 (Z.of_nat (length (chunks c)))); [lia|done].
  - destruct (lookup_lt_is_Some_2 (chunks c) 0) as [chunk0 Hchunk0]; [lia|].
    exists {| text := Some (chunk0 ++ paginationFooter c 0
                                      (Z.of_nat (length chunk0)));
              isError := false |}.
    split; [|split; [done|right; by exists chunk0]].
    unfold handleDownloadYoutubeUrl.
    unfold sweepThenGetOrPopulate in Hrun. unfold_M.
    cbn -[str numberToString Z.of_nat Z.ltb Z.sub Z.add index] in *.
    rewrite Hrun.
    destruct (Z.ltb_spec 1 (Z.of_nat (length (chunks c)))); [|lia].
    replace (index (chunks c) 0) with (Some chunk0) by done.
    unfold paginationFooter, plus.
    destruct (Z.ltb_spec 0 (Z.of_nat (length (chunks c)) - 1)); [|lia].
    cbn -[str numberToString Z.of_nat Z.ltb Z.sub Z.add].
    change (str "This is chunk 1 of ")
      with (str "This is chunk " ++ numberToString (0 + 1) ++ str " of ").
    change (str "1") with (numberToString (0 + 1)).
    do 3 f_equal. rewrite <- !app_assoc. reflexivity.
Qed.

Lemma sweepThenGetOrPopulate_live fuel env u size st c st' :
  sweepThenGetOrPopulate getCacheKey fuel env u size st
  = Some (Returned c, st') →
  subtitleCache st' !! getCacheKey u = Some c
  ∧ (now_sweep env - timestamp c ≤ CACHE_TTL
     ∨ (timestamp c = now_store env
        ∧ spawned st' = spawned st ++ [u])).
Proof.
  intros Hrun.
  split; [by eapply returned_entry_is_cached|].
  destruct (sweepThenGetOrPopulate_inv _ _ _ _ _ _ _ Hrun)
    as [(c0 & Hhit & [= <-] & ->)
       |[(_ & err & _ & ? & _)
        |(_ & files & cs & Hfiles & _ & [= ->] & ->)]]; [|done|].
  - left. by apply cleanup_lookup_Some in Hhit as [_ ?].
  - right. split; [done|]. simpl. unfold spawnsOf.
    apply captions_Returned in Hfiles. by rewrite Hfiles.
Qed.

(** X21: a result that is not an error result is built from the entry
    the cache holds for the URL afterwards: for [download_youtube_url]
    its text is chunk 0 of that entry, followed by the footer of chunk 0
    when there are several chunks; for [get_youtube_subtitles] it is the
    chunk at the index asked for followed by its footer.  That entry is
    either no older than the TTL at the time of the sweep or was stored
    by this very request after one spawn of [yt-dlp]. *)
Theorem success_uses_live_entry fuel env u chunk_index chunk_size st r st' :
  isError r = false →
  (handleDownloadYoutubeUrl getCacheKey fuel env u st = Some (Returned r, st')
   → ∃ c,
       subtitleCache st' !! getCacheKey u = Some c
       ∧ (now_sweep env - timestamp c ≤ CACHE_TTL
          ∨ (timestamp c = now_store env
             ∧ spawned st' = spawned st ++ [u]))
       ∧ (((length (chunks c) ≤ 1)%nat ∧ text r = chunks c !! 0%nat)
          ∨ (∃ chunk0,
               chunks c !! 0%nat = Some chunk0
               ∧ text r = Some (chunk0 ++ paginationFooter c 0
                                            (Z.of_nat (length chunk0))))))
  ∧ (handleGetYoutubeSubtitles getCacheKey fuel env u chunk_index chunk_size st
     = Some (Returned r, st')
     → ∃ c chunk,
         subtitleCache st' !! getCacheKey u = Some c
         ∧ (now_sweep env - timestamp c ≤ CACHE_TTL
            ∨ (timestamp c = now_store env
               ∧ spawned st' = spawned st ++ [u]))
         ∧ 0 ≤ chunk_index
         ∧ chunks c !! Z.to_nat chunk_index = Some chunk
         ∧ text r = Some (chunk ++ paginationFooter c chunk_index
                                     (Z.of_nat (length chunk)))).
Proof.
  intros Hok. split; intros Hres.
  - destruct (handleDownloadYoutubeUrl_inv _ _ _ _ _ Hres)
      as (r' & o & st'' & [= <- <-] & Hrun & Ho).
    destruct o as [c|err]; [|by subst r].
    destruct (sweepThenGetOrPopulate_live _ _ _ _ _ _ _ Hrun) as [Hc Hlive].
    destruct (handleDownloadYoutubeUrl_text _ _ _ _ _ _ Hrun)
      as (r' & Hres' & _ & Htext).
    rewrite Hres in Hres'. injection Hres' as <-. by exists c.
  - destruct (handleGetYoutubeSubtitles_inv _ _ _ _ _ _ _ Hres)
      as (r' & o & st'' & [= <- <-] & Hrun & Ho).
    destruct o as [c|err]; [|by subst r].
    destruct (sweepThenGetOrPopulate_live _ _ _ _ _ _ _ Hrun) as [Hc Hlive].
    destruct (decide (0 ≤ chunk_index < Z.of_nat (length (chunks c))))
      as [Hin|Hout]; [|by subst r].
    destruct (handleGetYoutubeSubtitles_in_range _ _ _ _ _ _ _ _ _ Hrun Hin)
      as (chunk & Hchunk & Hres').
    rewrite Hres in Hres'. injection Hres' as ->.
    exists c, chunk. split_and!; try done. lia.
Qed.

(** X22: when the entry has exactly one chunk, the
    [download_youtube_url] response is that chunk and nothing else: no
    pagination footer is added. *)
Theorem download_single_chunk fuel env u st c st' chunk :
  sweepThenGetOrPopulate getCacheKey fuel env u DEFAULT_CHUNK_SIZE st
  = Some (Returned c, st') →
  chunks c = [chunk] →
  handleDownloadYoutubeUrl getCacheKey fuel env u st
  = Some (Returned {| text := Some chunk; isError := false |}, st').
Proof.
  intros Hrun Hone. unfold handleDownloadYoutubeUrl.
  unfold sweepThenGetOrPopulate in Hrun. unfold_M. simpl in *.
  by rewrite Hrun, Hone.
Qed.

(** X23: when the entry has more than one chunk, the
    [download_youtube_url] response is the same result, in the same
    state, as [get_youtube_subtitles] for chunk 0 without a chunk size:
    the first chunk followed by the footer for "chunk 1" with the hint
    to ask for chunk 1. *)
Theorem download_agrees_with_get_0 fuel env u st c st' :
  sweepThenGetOrPopulate getCacheKey fuel env u DEFAULT_CHUNK_SIZE st
  = Some (Returned c, st') →
  (1 < length (chunks c))%nat →
  handleDownloadYoutubeUrl getCacheKey fuel env u st
  = handleGetYoutubeSubtitles getCacheKey fuel env u 0 None st
  ∧ ∃ chunk0,
      chunks c !! 0%nat = Some chunk0
      ∧ handleDownloadYoutubeUrl getCacheKey fuel env u st
        = Some (Returned
                  {| text := Some (chunk0 ++ paginationFooter c 0
                                     (Z.of_nat (length chunk0)));
                     isError := false |}, st').
Proof.
  intros Hrun Hlong.
  destruct (handleGetYoutubeSubtitles_in_range getCacheKey fuel env u 0 None
              st c st' Hrun ltac:(lia)) as (chunk0 & Hchunk0 & Hget).
  assert (handleDownloadYoutubeUrl getCacheKey fuel env u st
          = Some (Returned
                    {| text := Some (chunk0 ++ paginationFooter c 0
                                       (Z.of_nat (length chunk0)));
                       isError := false |}, st')) as Hdl.
  { unfold handleDownloadYoutubeUrl.
    unfold sweepThenGetOrPopulate in Hrun. unfold_M.
    cbn -[str numberToString Z.of_nat Z.ltb Z.sub Z.add index] in *.
    rewrite Hrun.
    destruct (Z.ltb_spec 1 (Z.of_nat (length (chunks c)))); [|lia].
    replace (index (chunks c) 0) with (Some chunk0) by done.
    unfold paginationFooter, plus.
    destruct (Z.ltb_spec 0 (Z.of_nat (length (chunks c)) - 1)); [|lia].
    cbn -[str numberToString Z.of_nat Z.ltb Z.sub Z.add].
    change (str "This is chunk 1 of ")
      with (str "This is chunk " ++ numberToString (0 + 1) ++ str " of ").
    change (str "1") with (numberToString (0 + 1)).
    do 3 f_equal. rewrite <- !app_assoc. reflexivity. }
  split; [by rewrite Hdl, Hget|]. by exists chunk0.
Qed.

(** X24: when the entry has no chunk (an empty download), every integer
    chunk index is out of range for [get_youtube_subtitles]: the result
    is an error result whose text echoes the index (in plain decimal for
    an index of magnitude at most 2^53) and names the range "0--1". *)
Theorem get_on_empty_entry fuel env u chunk_index chunk_size st c st' :
  sweepThenGetOrPopulate getCacheKey fuel env u
    (chunkSizeOrDefault chunk_size) st = Some (Returned c, st') →
  chunks c = [] →
  ∃ echo,
    handleGetYoutubeSubtitles getCacheKey fuel env u chunk_index chunk_size st
    = Some (Returned
              {| text := Some (str "Error: chunk_index " ++ echo
                               ++ str " is out of range. Available chunks: 0--1");
                 isError := true |}, st')
    ∧ (- 2 ^ 53 ≤ chunk_index ≤ 2 ^ 53 → echo = numberToString chunk_index).
Proof.
  intros Hrun Hempty. exists (numberToString chunk_index). split; [|done].
  rewrite (handleGetYoutubeSubtitles_out_of_range _ _ _ _ _ _ _ _ _ Hrun)
    by (rewrite Hempty; simpl; lia).
  unfold outOfRangeText. by rewrite Hempty.
Qed.

(** X25: the next-chunk hint can be followed: after a request worked on
    an entry, a request for the index after a valid index that is not
    the last one, swept while the entry has not expired, returns the
    chunk at that index with its footer, from the same entry and
    without a new download. *)
Theorem next_chunk_hint_is_valid fuel1 fuel2 env1 env2 u size1
    chunk_index chunk_size st0 st1 c :
  sweepThenGetOrPopulate getCacheKey fuel1 env1 u size1 st0
  = Some (Returned c, st1) →
  0 ≤ chunk_index < Z.of_nat (length (chunks c)) - 1 →
  now_sweep env2 - timestamp c ≤ CACHE_TTL →
  ∃ chunk,
    chunks c !! Z.to_nat (chunk_index + 1) = Some chunk
    ∧ handleGetYoutubeSubtitles getCacheKey fuel2 env2 u (chunk_index + 1)
        chunk_size st1
      = Some (Returned
                {| text := Some (chunk ++ paginationFooter c (chunk_index + 1)
                                            (Z.of_nat (length chunk)));
                   isError := false |}, swept env2 st1).
Proof.
  intros Hfirst Hidx Hfresh.
  apply returned_entry_is_cached in Hfirst.
  assert (cleanupExpiredCache (now_sweep env2) (subtitleCache st1)
            !! getCacheKey u = Some c) as Hkept
    by by apply cleanup_lookup_Some.
  apply (handleGetYoutubeSubtitles_in_range getCacheKey fuel2 env2 u
           (chunk_index + 1) chunk_size st1 c (swept env2 st1)); [|lia].
  by apply sweepThenGetOrPopulate_hit.
Qed.

End ServerMore.

(** ** Closed instances of the further properties *)

Lemma stripVtt_no_adjacent_duplicates_witness :
  no_adjacent_duplicates (split nl (stripVttNonContent scenario)).
Proof. exact (stripVtt_no_adjacent_duplicates scenario). Defined.

Lemma readCaptions_blocks_witness :
  readCaptions [] = [].
Proof. by apply (proj2 (proj2 (readCaptions_blocks []))). Defined.

Lemma emptyState_miss (now : Z) (k : jsstring) :
  cleanupExpiredCache now (subtitleCache emptyState) !! k = None.
Proof.
  apply cleanup_lookup_None. intros c Hc. simpl in Hc.
  by rewrite lookup_empty in Hc.
Qed.

Lemma sample_download_one_file :
  sweepThenGetOrPopulate id 1 (sampleEnv 2000 oneFile) sampleUrl
    DEFAULT_CHUNK_SIZE emptyState
  = Some (Returned oneFileEntry,
          {| subtitleCache :=
               <[id sampleUrl := oneFileEntry]>
                 (cleanupExpiredCache 2000 (subtitleCache emptyState));
             spawned := [sampleUrl] |}).
Proof.
  rewrite (sweepThenGetOrPopulate_miss id 1 (sampleEnv 2000 oneFile) sampleUrl
             _ emptyState (emptyState_miss _ _)).
  reflexivity.
Qed.

Lemma sample_download_result :
  handleDownloadYoutubeUrl id 1 (sampleEnv 2000 oneFile) sampleUrl emptyState
  = Some (Returned {| text := Some (readCaptions oneFile); isError := false |},
          {| subtitleCache :=
               <[id sampleUrl := oneFileEntry]>
                 (cleanupExpiredCache 2000 (subtitleCache emptyState));
             spawned := [sampleUrl] |}).
Proof.
  pose proof sample_download_one_file as Hrun.
  unfold handleDownloadYoutubeUrl.
  unfold sweepThenGetOrPopulate in Hrun. unfold_M.
  cbn -[str numberToString Z.of_nat Z.ltb readCaptions cleanupExpiredCache] in *.
  by rewrite Hrun.
Qed.

Lemma failed_download_is_reported_witness :
  (let st' :=
     {| subtitleCache := cleanupExpiredCache 2000 (subtitleCache emptyState);
        spawned := spawned emptyState ++ [sampleUrl] |} in
   handleDownloadYoutubeUrl id 0 failingEnv sampleUrl emptyState
   = Some (Returned downloadError, st')
   ∧ handleGetYoutubeSubtitles id 0 failingEnv sampleUrl 0 None emptyState
     = Some (Returned
               {| text := Some (str "Error getting subtitles: "
                                ++ str "Error: yt-dlp exited with code 1");
                  isError := true |}, st')
   ∧ subtitleCache st' !! id sampleUrl = None)
  ∧ (let st' :=
       {| subtitleCache := cleanupExpiredCache 2000 (subtitleCache emptyState);
          spawned := spawned emptyState ++ [] |} in
     handleDownloadYoutubeUrl id 0 noTempDirEnv sampleUrl emptyState
     = Some (Returned
               {| text := Some (str "Error downloading video: "
                                ++ str "Error: ENOSPC: no space left on device, mkdtemp");
                  isError := true |}, st')
     ∧ handleGetYoutubeSubtitles id 0 noTempDirEnv sampleUrl 0 None emptyState
       = Some (Returned
                 {| text := Some (str "Error getting subtitles: "
                                  ++ str "Error: ENOSPC: no space left on device, mkdtemp");
                    isError := true |}, st')
     ∧ subtitleCache st' !! id sampleUrl = None).
Proof.
  split.
  - apply (failed_download_is_reported id 0 failingEnv sampleUrl 0 None
             emptyState (str "Error: yt-dlp exited with code 1")).
    + apply emptyState_miss.
    + reflexivity.
  - apply (failed_download_is_reported id 0 noTempDirEnv sampleUrl 0 None
             emptyState
             (str "Error: ENOSPC: no space left on device, mkdtemp")).
    + apply emptyState_miss.
    + reflexivity.
Defined.

Lemma handlers_never_throw_witness :
  handleDownloadYoutubeUrl id 0 failingEnv sampleUrl emptyState
  ≠ Some (Thrown (str "Error: yt-dlp exited with code 1"), emptyState)
  ∧ handleGetYoutubeSubtitles id 0 failingEnv sampleUrl 0 None emptyState
    ≠ Some (Thrown (str "Error: yt-dlp exited with code 1"), emptyState).
Proof. apply handlers_never_throw. Defined.

Lemma callTool_throws_iff_unknown_witness :
  callTool id 0 failingEnv (str "list_videos")
    {| args_url := sampleUrl; args_chunk_index := 0; args_chunk_size := None |}
    emptyState
  = Some (Thrown (str "Error: Unknown tool: list_videos"), emptyState).
Proof.
  apply (proj2 (callTool_throws_iff_unknown id 0 failingEnv
                  (str "list_videos") _ emptyState _ emptyState)).
  split_and!; done.
Defined.

Lemma sample_failed_download :
  handleDownloadYoutubeUrl id 0 failingEnv sampleUrl emptyState
  = Some (Returned downloadError,
          {| subtitleCache := cleanupExpiredCache 2000 (subtitleCache emptyState);
             spawned := [sampleUrl] |}).
Proof.
  apply handleDownloadYoutubeUrl_thrown.
  by rewrite (sweepThenGetOrPopulate_miss id 0 failingEnv sampleUrl _
                emptyState (emptyState_miss _ _)).
Qed.

Lemma sample_no_temp_dir :
  handleDownloadYoutubeUrl id 0 noTempDirEnv sampleUrl emptyState
  = Some (Returned
            {| text := Some (str "Error downloading video: "
                             ++ str "Error: ENOSPC: no space left on device, mkdtemp");
               isError := true |},
          {| subtitleCache := cleanupExpiredCache 2000 (subtitleCache emptyState);
             spawned := [] |}).
Proof.
  apply handleDownloadYoutubeUrl_thrown.
  by rewrite (sweepThenGetOrPopulate_miss id 0 noTempDirEnv sampleUrl _
                emptyState (emptyState_miss _ _)).
Qed.

Lemma download_error_iff_witness :
  isError downloadError = true
  ↔ cleanupExpiredCache (now_sweep failingEnv) (subtitleCache emptyState)
      !! id sampleUrl = None
    ∧ ∃ err, captions failingEnv sampleUrl = Thrown err.
Proof.
  apply (download_error_iff id 0 failingEnv sampleUrl emptyState
           downloadError _ sample_failed_download).
Defined.

Lemma sample_get_5 :
  handleGetYoutubeSubtitles id 0 (sampleEnv 2000 []) sampleUrl 5 None
    sampleState
  = Some (Returned outOfRange5, swept (sampleEnv 2000 []) sampleState).
Proof.
  rewrite (handleGetYoutubeSubtitles_out_of_range id 0 (sampleEnv 2000 [])
             sampleUrl 5 None sampleState sampleEntry
             (swept (sampleEnv 2000 []) sampleState)).
  - reflexivity.
  - apply sampleState_hit. unfold CACHE_TTL. lia.
  - simpl. lia.
Qed.

Lemma get_error_iff_witness :
  let env := sampleEnv 2000 [] in
  isError outOfRange5 = true
  ↔ (cleanupExpiredCache (now_sweep env) (subtitleCache sampleState)
       !! id sampleUrl = None
     ∧ ∃ err, captions env sampleUrl = Thrown err)
    ∨ (∃ c, subtitleCache (swept env sampleState) !! id sampleUrl = Some c
            ∧ ¬ (0 ≤ 5 < Z.of_nat (length (chunks c)))).
Proof.
  apply (get_error_iff id 0 (sampleEnv 2000 []) sampleUrl 5 None sampleState
           outOfRange5 _).
  - intros n Hn. discriminate Hn.
  - exact sample_get_5.
Defined.

Lemma request_spawns_iff_miss_witness :
  (let env := sampleEnv 2000 oneFile in
   [sampleUrl]
   = spawned emptyState
     ++ match cleanupExpiredCache (now_sweep env) (subtitleCache emptyState)
              !! id sampleUrl with
        | Some _ => []
        | None =>
            match download env sampleUrl with
            | TempDirFailed _ => []
            | FailedAfterSpawn _ => [sampleUrl]
            | Downloaded _ => [sampleUrl]
            end
        end)
  ∧ ([]
     = spawned emptyState
       ++ match cleanupExpiredCache (now_sweep noTempDirEnv)
                  (subtitleCache emptyState) !! id sampleUrl with
          | Some _ => []
          | None =>
              match download noTempDirEnv sampleUrl with
              | TempDirFailed _ => []
              | FailedAfterSpawn _ => [sampleUrl]
              | Downloaded _ => [sampleUrl]
              end
          end).
Proof.
  split.
  - apply (request_spawns_iff_miss id 1 (sampleEnv 2000 oneFile) sampleUrl 0
             None emptyState
             {| text := Some (readCaptions oneFile); isError := false |}
             {| subtitleCache :=
                  <[id sampleUrl := oneFileEntry]>
                    (cleanupExpiredCache 2000 (subtitleCache emptyState));
                spawned := [sampleUrl] |}).
    + intros n Hn. discriminate Hn.
    + left. exact sample_download_result.
  - apply (request_spawns_iff_miss id 0 noTempDirEnv sampleUrl 0 None
             emptyState
             {| text := Some (str "Error downloading video: "
                              ++ str "Error: ENOSPC: no space left on device, mkdtemp");
                isError := true |}
             {| subtitleCache :=
                  cleanupExpiredCache 2000 (subtitleCache emptyState);
                spawned := [] |}).
    + intros n Hn. discriminate Hn.
    + left. exact sample_no_temp_dir.
Defined.

Lemma request_frame_witness :
  let env := sampleEnv 2000 [] in
  subtitleCache (swept env sampleState) !! str "other"
  = cleanupExpiredCache (now_sweep env) (subtitleCache sampleState)
      !! str "other".
Proof.
  apply (request_frame id 0 (sampleEnv 2000 []) sampleUrl 5 None
           sampleState outOfRange5).
  - right. exact sample_get_5.
  - intros Heq. vm_compute in Heq. discriminate Heq.
Defined.

Lemma sampleState_consistent : cache_consistent id (subtitleCache sampleState).
Proof.
  intros k c Hc. simpl in Hc.
  apply lookup_singleton_Some in Hc as [<- <-]. by split.
Qed.

Lemma request_keeps_cache_consistent_witness :
  cache_consistent id
    (<[id sampleUrl := oneFileEntry]>
       (cleanupExpiredCache 2000 (subtitleCache emptyState))).
Proof.
  change (cache_consistent id
            (subtitleCache
               {| subtitleCache :=
                    <[id sampleUrl := oneFileEntry]>
                      (cleanupExpiredCache 2000 (subtitleCache emptyState));
                  spawned := [sampleUrl] |})).
  apply (request_keeps_cache_consistent id 1 (sampleEnv 2000 oneFile)
           sampleUrl 0 None emptyState
           {| text := Some (readCaptions oneFile); isError := false |}
           {| subtitleCache :=
                <[id sampleUrl := oneFileEntry]>
                  (cleanupExpiredCache 2000 (subtitleCache emptyState));
              spawned := [sampleUrl] |}).
  - intros n Hn. discriminate Hn.
  - intros k c Hc. simpl in Hc. by rewrite lookup_empty in Hc.
  - left. exact sample_download_result.
Defined.

Lemma success_uses_live_entry_witness :
  let env := sampleEnv 2000 oneFile in
  let st' :=
    {| subtitleCache :=
         <[id sampleUrl := oneFileEntry]>
           (cleanupExpiredCache 2000 (subtitleCache emptyState));
       spawned := [sampleUrl] |} in
  ∃ c,
    subtitleCache st' !! id sampleUrl = Some c
    ∧ (now_sweep env - timestamp c ≤ CACHE_TTL
       ∨ (timestamp c = now_store env
          ∧ spawned st' = spawned emptyState ++ [sampleUrl]))
    ∧ (((length (chunks c) ≤ 1)%nat
        ∧ Some (readCaptions oneFile) = chunks c !! 0%nat)
       ∨ (∃ chunk0,
            chunks c !! 0%nat = Some chunk0
            ∧ Some (readCaptions oneFile)
              = Some (chunk0 ++ paginationFooter c 0
                                  (Z.of_nat (length chunk0))))).
Proof.
  intros env st'.
  apply (proj1 (success_uses_live_entry id 1 env sampleUrl 0 None emptyState
                  {| text := Some (readCaptions oneFile); isError := false |}
                  st' eq_refl)).
  exact sample_download_result.
Defined.

Lemma download_single_chunk_witness :
  handleDownloadYoutubeUrl id 1 (sampleEnv 2000 oneFile) sampleUrl emptyState
  = Some (Returned {| text := Some (readCaptions oneFile); isError := false |},
          {| subtitleCache :=
               <[id sampleUrl := oneFileEntry]>
                 (cleanupExpiredCache 2000 (subtitleCache emptyState));
             spawned := [sampleUrl] |}).
Proof.
  apply (download_single_chunk id 1 (sampleEnv 2000 oneFile) sampleUrl
           emptyState oneFileEntry _ (readCaptions oneFile)).
  - exact sample_download_one_file.
  - reflexivity.
Defined.

Lemma download_agrees_with_get_0_witness :
  let env := sampleEnv 2000 [] in
  handleDownloadYoutubeUrl id 0 env sampleUrl sampleState
  = handleGetYoutubeSubtitles id 0 env sampleUrl 0 None sampleState
  ∧ ∃ chunk0,
      chunks sampleEntry !! 0%nat = Some chunk0
      ∧ handleDownloadYoutubeUrl id 0 env sampleUrl sampleState
        = Some (Returned
                  {| text := Some (chunk0 ++ paginationFooter sampleEntry 0
                                     (Z.of_nat (length chunk0)));
                     isError := false |}, swept env sampleState).
Proof.
  intros env.
  apply (download_agrees_with_get_0 id 0 env sampleUrl sampleState
           sampleEntry (swept env sampleState)).
  - apply sampleState_hit. unfold CACHE_TTL. lia.
  - simpl. lia.
Defined.

Lemma get_on_empty_entry_witness :
  ∃ st',
    handleGetYoutubeSubtitles id 0 (sampleEnv 2000 []) sampleUrl 0 None
      emptyState
    = Some (Returned
              {| text := Some (str "Error: chunk_index 0 is out of range. Available chunks: 0--1");
                 isError := true |}, st').
Proof.
  eexists.
  destruct (get_on_empty_entry id 0 (sampleEnv 2000 []) sampleUrl 0 None
              emptyState
              {| url := sampleUrl; content := []; chunks := [];
                 timestamp := 2005 |}
              {| subtitleCache :=
                   <[id sampleUrl := {| url := sampleUrl; content := [];
                                        chunks := []; timestamp := 2005 |}]>
                     (cleanupExpiredCache 2000 (subtitleCache emptyState));
                 spawned := [sampleUrl] |})
    as (echo & Hres & Hecho).
  - rewrite (sweepThenGetOrPopulate_miss id 0 (sampleEnv 2000 []) sampleUrl
               _ emptyState (emptyState_miss _ _)).
    reflexivity.
  - reflexivity.
  - rewrite Hecho in Hres by lia. exact Hres.
Defined.

Lemma next_chunk_hint_is_valid_witness :
  let env1 := sampleEnv 2000 [] in
  let env2 := sampleEnv 3000 [] in
  ∃ chunk,
    chunks sampleEntry !! Z.to_nat (0 + 1) = Some chunk
    ∧ handleGetYoutubeSubtitles id 0 env2 sampleUrl (0 + 1) None
        (swept env1 sampleState)
      = Some (Returned
                {| text := Some (chunk ++ paginationFooter sampleEntry (0 + 1)
                                            (Z.of_nat (length chunk)));
                   isError := false |}, swept env2 (swept env1 sampleState)).
Proof.
  intros env1 env2.
  apply (next_chunk_hint_is_valid id 0 0 env1 env2 sampleUrl
           DEFAULT_CHUNK_SIZE 0 None sampleState).
  - apply sampleState_hit. unfold CACHE_TTL. lia.
  - simpl. lia.
  - unfold CACHE_TTL. simpl. lia.
Defined.
